(** * DVrouter: the distance-vector router of [DVrouter.py]

    A shallow embedding of the class [DVrouter] and the properties of its
    event handlers.  The router object becomes a record, every handler a
    function from the record to an [outcome]: the record after the call, the
    packets handed to [send], and the exception that escaped, if any. *)

From stdpp Require Import base gmap strings list fin_maps.
From Stdlib Require Import ZArith Lia.

Local Open Scope Z_scope.
#[local] Set Warnings "-clear-no-such-hyp".

(** ** Python values and exceptions *)

Abbreviation addr := string.

(** [INFINITY = 16] *)
Definition INFINITY : Z := 16.

(** What [json.loads] can return.  Object keys are strings; an object that
    repeats a key has already been reduced to its last binding, as
    [json.loads] does.  JSON numbers are the integers: the simulator's costs
    are integers, and a fractional number is outside this model. *)
#[warnings="-register-all"]
Inductive pyval : Type :=
  | PNone
  | PBool (b : bool)
  | PInt (z : Z)
  | PStr (s : string)
  | PList (l : list pyval)
  | PDict (m : gmap string pyval).

Inductive exn : Type :=
  | JSONDecodeError
  | KeyError
  | AttributeError
  | TypeError
  | RecursionError
  | ValueError.

Inductive result (A : Type) : Type :=
  | Ok (a : A)
  | Raise (e : exn).
Arguments Ok {A} a.
Arguments Raise {A} e.

#[global] Instance result_ret : MRet result := λ A a, Ok a.
#[global] Instance result_bind : MBind result := λ A B f m,
  match m with
  | Ok a => f a
  | Raise e => Raise e
  end.

(** [dv.keys()]: only a dict has the attribute. *)
Definition py_keys (v : pyval) : result (gset addr) :=
  match v with
  | PDict m => Ok (dom m)
  | _ => Raise AttributeError
  end.

(** [dv.get(k, dflt)] *)
Definition py_get (v : pyval) (k : addr) (dflt : pyval) : result pyval :=
  match v with
  | PDict m => Ok (default dflt (m !! k))
  | _ => Raise AttributeError
  end.

(** [c + v] for an int [c]: Python adds an int or a bool (a subclass of
    int) and raises [TypeError] for [None], [str], [list] and [dict]. *)
Definition py_add (c : Z) (v : pyval) : result Z :=
  match v with
  | PInt z => Ok (c + z)
  | PBool b => Ok (c + Z.b2z b)
  | _ => Raise TypeError
  end.

(** ** Python dicts whose iteration order matters

    [self.neighbors] is iterated for the tie-break of [update_dv], for the
    order of the sends of [broadcast_dv] and for the first match of
    [handle_remove_link], so it is kept as the list of its items in insertion
    order.  Assignment to a key that is present keeps its position. *)
Section pydict.
Context {V : Type}.

Fixpoint dict_get (k : addr) (d : list (addr * V)) : option V :=
  match d with
  | [] => None
  | (k', v) :: d' => if decide (k = k') then Some v else dict_get k d'
  end.

Fixpoint dict_set (k : addr) (v : V) (d : list (addr * V)) : list (addr * V) :=
  match d with
  | [] => [(k, v)]
  | (k', v') :: d' =>
      if decide (k = k') then (k, v) :: d' else (k', v') :: dict_set k v d'
  end.

Fixpoint dict_del (k : addr) (d : list (addr * V)) : list (addr * V) :=
  match d with
  | [] => []
  | (k', v') :: d' =>
      if decide (k = k') then dict_del k d' else (k', v') :: dict_del k d'
  end.

Definition dict_keys (d : list (addr * V)) : list addr := d.*1.

(** [k in d] *)
Definition dict_mem (k : addr) (d : list (addr * V)) : bool :=
  bool_decide (is_Some (dict_get k d)).
End pydict.

(** ** Packets and the router object *)

Inductive packet_kind : Type := TRACEROUTE | ROUTING.

(** The content string of a packet, by what [json.loads] makes of it:
    [Garbled s] is text that is not JSON, [Json v] the text of the value [v],
    [TooDeep s] text nested beyond the interpreter's recursion limit (about
    a thousand brackets), [TooLong s] text with an integer literal beyond the
    interpreter's digit limit.  On the last two [json.loads] raises
    [RecursionError] and [ValueError], neither a [JSONDecodeError]. *)
Inductive content : Type :=
  | Garbled (s : string)
  | Json (v : pyval)
  | TooDeep (s : string)
  | TooLong (s : string).

Definition json_loads (c : content) : result pyval :=
  match c with
  | Garbled _ => Raise JSONDecodeError
  | Json v => Ok v
  | TooDeep _ => Raise RecursionError
  | TooLong _ => Raise ValueError
  end.

Definition json_dumps (v : pyval) : content := Json v.

Record Packet : Type := mkPacket {
  kind : packet_kind;
  src_addr : addr;
  dst_addr : addr;
  pcontent : content
}.

Definition is_traceroute (p : Packet) : bool :=
  match kind p with TRACEROUTE => true | ROUTING => false end.

(** [{'port': port, 'cost': cost}] *)
Record NeighborInfo : Type := mkInfo { port : Z; cost : Z }.

Record DVrouter : Type := mkRouter {
  self_addr : addr;
  heartbeat_time : Z;
  last_time : Z;
  distance_vector : gmap addr (Z * option addr);
  neighbors : list (addr * NeighborInfo);
  neighbor_dvs : gmap addr pyval
}.

(** A call of [send(port, packet)]. *)
Abbreviation send_call := (Z * Packet)%type.

Record outcome : Type := mkOutcome {
  state : DVrouter;
  sent : list send_call;
  raised : option exn
}.

(** [DVrouter.__init__] *)
Definition init (a : addr) (hb : Z) : DVrouter :=
  {| self_addr := a;
     heartbeat_time := hb;
     last_time := 0;
     distance_vector := {[ a := (0, Some a) ]};
     neighbors := [];
     neighbor_dvs := ∅ |}.

Definition set_distance_vector (r : DVrouter) (dv : gmap addr (Z * option addr)) : DVrouter :=
  {| self_addr := self_addr r;
     heartbeat_time := heartbeat_time r;
     last_time := last_time r;
     distance_vector := dv;
     neighbors := neighbors r;
     neighbor_dvs := neighbor_dvs r |}.

Definition set_neighbor_dv (r : DVrouter) (k : addr) (v : pyval) : DVrouter :=
  {| self_addr := self_addr r;
     heartbeat_time := heartbeat_time r;
     last_time := last_time r;
     distance_vector := distance_vector r;
     neighbors := neighbors r;
     neighbor_dvs := <[k := v]> (neighbor_dvs r) |}.

(** ** [broadcast_dv] *)

(** [get_dv_for_broadcast]: the table as [{dest: cost}]. *)
Definition get_dv_for_broadcast (r : DVrouter) : gmap addr Z :=
  fst <$> distance_vector r.

(** The poisoned-reverse loop of [broadcast_dv] for one neighbor: every
    item of the table whose next hop is the neighbor, the neighbor's own
    entry apart, overwrites its key of [dv_to_send] with [INFINITY]. *)
Definition poison_step (neighbor_addr : addr) (dest : addr)
    (entry : Z * option addr) (dv_to_send : gmap addr Z) : gmap addr Z :=
  if decide (entry.2 = Some neighbor_addr ∧ dest ≠ neighbor_addr)
  then <[dest := INFINITY]> dv_to_send
  else dv_to_send.

Definition poisoned_view (r : DVrouter) (neighbor_addr : addr) : gmap addr Z :=
  map_fold (poison_step neighbor_addr) (get_dv_for_broadcast r) (distance_vector r).

Definition dv_packet (r : DVrouter) (neighbor_addr : addr) : Packet :=
  mkPacket ROUTING (self_addr r) neighbor_addr
    (json_dumps (PDict (PInt <$> poisoned_view r neighbor_addr))).

Definition broadcast_dv (r : DVrouter) : list send_call :=
  map (λ item : addr * NeighborInfo, (port item.2, dv_packet r item.1)) (neighbors r).

(** ** [update_dv] *)

(** Lines 95-98: the candidate destinations.  The values of
    [neighbor_dvs] are visited in the map's order; the union does not depend
    on it, and the only exception any value can raise is [AttributeError]. *)
Fixpoint collect_keys (dvs : list pyval) (all_dests : gset addr) : result (gset addr) :=
  match dvs with
  | [] => Ok all_dests
  | dv :: dvs' => ks ← py_keys dv; collect_keys dvs' (all_dests ∪ ks)
  end.

Definition all_dests (r : DVrouter) : result (gset addr) :=
  collect_keys (map_to_list (neighbor_dvs r)).*2
    ({[ self_addr r ]} ∪ list_to_set (dict_keys (neighbors r))).

(** Lines 111-125: the loop over the neighbors for one destination, from
    the running [(min_cost, next_hop)]. *)
Fixpoint relax (advs : gmap addr pyval) (dest : addr)
    (ns : list (addr * NeighborInfo)) (best : Z * option addr)
    : result (Z * option addr) :=
  match ns with
  | [] => Ok best
  | (v_addr, v_info) :: ns' =>
      let cost_xv := cost v_info in
      cost_vy ← (if decide (dest = v_addr) then Ok (PInt 0)
                 else py_get (default (PDict ∅) (advs !! v_addr)) dest (PInt INFINITY));
      total_cost ← py_add cost_xv cost_vy;
      relax advs dest ns'
        (if decide (total_cost < best.1) then (total_cost, Some v_addr) else best)
  end.

(** Lines 107-131 for one destination: the entry written to [new_dv], or
    [None] when the destination is left out. *)
Definition route_for (r : DVrouter) (dest : addr) : result (option (Z * option addr)) :=
  best ← relax (neighbor_dvs r) dest (neighbors r) (INFINITY, None);
  let min_cost := Z.min best.1 INFINITY in
  Ok (if decide (min_cost < INFINITY) then Some (min_cost, best.2) else None).

(** Lines 103-131: the loop over [all_dests]. *)
Fixpoint fill (r : DVrouter) (dests : list addr) (new_dv : gmap addr (Z * option addr))
    : result (gmap addr (Z * option addr)) :=
  match dests with
  | [] => Ok new_dv
  | dest :: dests' =>
      if decide (dest = self_addr r) then fill r dests' new_dv
      else
        entry ← route_for r dest;
        fill r dests'
          (match entry with Some e => <[dest := e]> new_dv | None => new_dv end)
  end.

(** Lines 95-131: the table [new_dv]. *)
Definition compute_new_dv (r : DVrouter) : result (gmap addr (Z * option addr)) :=
  dests ← all_dests r;
  fill r (elements dests) {[ self_addr r := (0, Some (self_addr r)) ]}.

Definition update_dv (r : DVrouter) : outcome :=
  match compute_new_dv r with
  | Raise e => mkOutcome r [] (Some e)
  | Ok new_dv =>
      if decide (new_dv ≠ distance_vector r) then
        let r' := set_distance_vector r new_dv in
        mkOutcome r' (broadcast_dv r') None
      else mkOutcome r [] None
  end.

(** ** The event handlers *)

(** [try: ... except (json.JSONDecodeError, KeyError): print(...)] *)
Definition except_malformed (o : outcome) : outcome :=
  match raised o with
  | Some JSONDecodeError | Some KeyError => mkOutcome (state o) (sent o) None
  | _ => o
  end.

Definition handle_packet (r : DVrouter) (in_port : Z) (packet : Packet) : outcome :=
  if is_traceroute packet then
    match distance_vector r !! dst_addr packet with
    | Some (c, Some next_hop) =>
        if decide (c < INFINITY) then
          match dict_get next_hop (neighbors r) with
          | Some info => mkOutcome r [(port info, packet)] None
          | None => mkOutcome r [] None
          end
        else mkOutcome r [] None
    | _ => mkOutcome r [] None
    end
  else
    except_malformed
      match json_loads (pcontent packet) with
      | Raise e => mkOutcome r [] (Some e)
      | Ok received_dv =>
          if dict_mem (src_addr packet) (neighbors r) then
            update_dv (set_neighbor_dv r (src_addr packet) received_dv)
          else mkOutcome r [] None
      end.

Definition handle_new_link (r : DVrouter) (p : Z) (endpoint : addr) (c : Z) : outcome :=
  update_dv
    {| self_addr := self_addr r;
       heartbeat_time := heartbeat_time r;
       last_time := last_time r;
       distance_vector := distance_vector r;
       neighbors := dict_set endpoint (mkInfo p c) (neighbors r);
       neighbor_dvs := <[endpoint := PDict ∅]> (neighbor_dvs r) |}.

(** Lines 60-64: the first neighbor bound to the port. *)
Fixpoint find_port (p : Z) (ns : list (addr * NeighborInfo)) : option addr :=
  match ns with
  | [] => None
  | (a, info) :: ns' => if decide (port info = p) then Some a else find_port p ns'
  end.

(** Lines 74-77 *)
Definition withdraw (endpoint : addr) (entry : Z * option addr) : Z * option addr :=
  if decide (entry.2 = Some endpoint) then (INFINITY, None) else entry.

(** [if endpoint_to_remove:] is false for [None] and for the empty string. *)
Definition handle_remove_link (r : DVrouter) (p : Z) : outcome :=
  match find_port p (neighbors r) with
  | Some endpoint_to_remove =>
      if decide (endpoint_to_remove = EmptyString) then mkOutcome r [] None
      else
        update_dv
          {| self_addr := self_addr r;
             heartbeat_time := heartbeat_time r;
             last_time := last_time r;
             distance_vector := withdraw endpoint_to_remove <$> distance_vector r;
             neighbors := dict_del endpoint_to_remove (neighbors r);
             neighbor_dvs := delete endpoint_to_remove (neighbor_dvs r) |}
  | None => mkOutcome r [] None
  end.

Definition handle_time (r : DVrouter) (time_ms : Z) : outcome :=
  if decide (time_ms - last_time r >= heartbeat_time r) then
    let r' := {| self_addr := self_addr r;
                 heartbeat_time := heartbeat_time r;
                 last_time := time_ms;
                 distance_vector := distance_vector r;
                 neighbors := neighbors r;
                 neighbor_dvs := neighbor_dvs r |} in
    mkOutcome r' (broadcast_dv r') None
  else mkOutcome r [] None.

(** ** Runs of the router *)

Inductive event : Type :=
  | EvPacket (in_port : Z) (packet : Packet)
  | EvNewLink (p : Z) (endpoint : addr) (c : Z)
  | EvRemoveLink (p : Z)
  | EvTime (time_ms : Z).

Definition step (r : DVrouter) (ev : event) : outcome :=
  match ev with
  | EvPacket p packet => handle_packet r p packet
  | EvNewLink p endpoint c => handle_new_link r p endpoint c
  | EvRemoveLink p => handle_remove_link r p
  | EvTime t => handle_time r t
  end.

(** The router after a sequence of events.  A handler that lets an
    exception escape leaves the object as it had mutated it so far; the run
    goes on from there, which covers a driver that survives the exception as
    well as one that stops at it. *)
Definition run (r : DVrouter) (evs : list event) : DVrouter :=
  foldl (λ r ev, state (step r ev)) r evs.

(** ** The recomputation as section 4.5 words it

    These follow the text of the specification, to be compared with
    [update_dv]. *)

(** A neighbor's last advertisement is a mapping from destinations to
    integer costs. *)
Definition is_cost (y : pyval) : bool :=
  match y with PInt _ => true | _ => false end.

Definition is_cost_map (x : pyval) : bool :=
  match x with
  | PDict m => bool_decide (map_Forall (λ _ y, is_cost y) m)
  | _ => false
  end.

Definition adverts_wf (r : DVrouter) : Prop :=
  map_Forall (λ _ x, is_cost_map x) (neighbor_dvs r).

#[global] Instance adverts_wf_dec r : Decision (adverts_wf r).
Proof. unfold adverts_wf. apply _. Defined.

(** [advertisedCost(v,d)]: 0 if [d == v], else the value the neighbor last
    advertised for [d], else INFINITY. *)
Definition advertisedCost (r : DVrouter) (v d : addr) : Z :=
  if decide (d = v) then 0
  else match neighbor_dvs r !! v with
       | Some (PDict m) =>
           match m !! d with Some (PInt z) => z | _ => INFINITY end
       | _ => INFINITY
       end.

(** [estimate(v,d) = c(x,v) + advertisedCost(v,d)] *)
Definition estimate (r : DVrouter) (d : addr) (item : addr * NeighborInfo) : Z :=
  cost item.2 + advertisedCost r item.1 d.

(** [newCost(d)]: the minimum over all neighbors, clamped to INFINITY. *)
Definition newCost (r : DVrouter) (d : addr) : Z :=
  foldr Z.min INFINITY (estimate r d <$> neighbors r).

(** The candidate destinations other than what step 1 adds for self. *)
Definition candidate (r : DVrouter) (d : addr) : Prop :=
  d ∈ dict_keys (neighbors r) ∨
  ∃ v m, neighbor_dvs r !! v = Some (PDict m) ∧ is_Some (m !! d).

(** ** Invariants of the runs *)

(** No advertised cost of the value is a negative number. *)
Definition nonneg_cost (y : pyval) : bool :=
  match y with PInt z => bool_decide (0 ≤ z) | _ => true end.

Definition no_negative_cost (x : pyval) : bool :=
  match x with
  | PDict m => bool_decide (map_Forall (λ _ y, nonneg_cost y) m)
  | _ => true
  end.

(** An event whose link cost, or whose advertised costs, are not negative. *)
Definition event_nonneg (ev : event) : bool :=
  match ev with
  | EvNewLink _ _ c => bool_decide (0 ≤ c)
  | EvPacket _ packet =>
      match json_loads (pcontent packet) with
      | Ok x => no_negative_cost x
      | Raise _ => true
      end
  | _ => true
  end.

Record table_inv (r : DVrouter) : Prop := mkTableInv {
  inv_self :
    distance_vector r !! self_addr r = Some (0, Some (self_addr r)) ∨
    distance_vector r !! self_addr r = Some (INFINITY, None);
  inv_le : ∀ d c nh, distance_vector r !! d = Some (c, nh) → c ≤ INFINITY;
  inv_hop : ∀ d c nh,
    distance_vector r !! d = Some (c, nh) → d ≠ self_addr r → c < INFINITY →
    ∃ v, nh = Some v ∧ v ∈ dict_keys (neighbors r);
  inv_keys : NoDup (dict_keys (neighbors r))
}.

Record nonneg_inv (r : DVrouter) : Prop := mkNonnegInv {
  inv_ge : ∀ d c nh, distance_vector r !! d = Some (c, nh) → 0 ≤ c;
  inv_link : ∀ v info, (v, info) ∈ neighbors r → 0 ≤ cost info;
  inv_adv : map_Forall (λ _ x, no_negative_cost x) (neighbor_dvs r)
}.

(** ** Kinds of values and of events *)

Definition is_dict (x : pyval) : bool :=
  match x with PDict _ => true | _ => false end.

(** An event whose routing payload, if it decodes, is a mapping from
    destinations to integer costs. *)
Definition event_wf (ev : event) : bool :=
  match ev with
  | EvPacket _ packet =>
      is_traceroute packet ||
      match json_loads (pcontent packet) with
      | Ok x => is_cost_map x
      | Raise _ => true
      end
  | _ => true
  end.


(** An event that is no link-up to the router's own address. *)
Definition no_self_link (a : addr) (ev : event) : bool :=
  match ev with
  | EvNewLink _ endpoint _ => bool_decide (endpoint ≠ a)
  | _ => true
  end.

(** ** Facts about the insertion-ordered dicts *)

Section pydict_facts.
Context {V : Type}.
Implicit Types (d : list (addr * V)) (k : addr) (v : V).

Lemma dict_get_Some_elem k v d : dict_get k d = Some v → (k, v) ∈ d.
Proof.
  induction d as [|[k' v'] d IH]; simpl; [done|].
  case_decide as Hk.
  - intros [= ->]. subst. left.
  - intros H. right. auto.
Qed.

Lemma dict_get_is_Some k d : is_Some (dict_get k d) ↔ k ∈ dict_keys d.
Proof.
  unfold dict_keys. induction d as [|[k' v'] d IH]; simpl.
  - split; [by intros [? ?] | by intros ?%elem_of_nil].
  - rewrite elem_of_cons. case_decide as Hk.
    + split; [by left | by eauto].
    + rewrite IH. naive_solver.
Qed.


Lemma dict_get_elem k v d :
  NoDup (dict_keys d) → (k, v) ∈ d → dict_get k d = Some v.
Proof.
  unfold dict_keys. induction d as [|[k' v'] d IH]; simpl.
  - by intros _ ?%elem_of_nil.
  - intros [Hnot Hnd]%NoDup_cons [Heq|Hin]%elem_of_cons.
    + injection Heq as -> ->. by rewrite decide_True.
    + case_decide as Hk; [|by auto].
      subst k'. exfalso. apply Hnot.
      apply list_elem_of_fmap. by exists (k, v).
Qed.

Lemma dict_keys_set k v d k' :
  k' ∈ dict_keys (dict_set k v d) ↔ k' = k ∨ k' ∈ dict_keys d.
Proof.
  unfold dict_keys. induction d as [|[k0 v0] d IH]; simpl.
  - rewrite list_elem_of_singleton. set_solver.
  - case_decide as Hk; simpl; rewrite !elem_of_cons.
    + subst. naive_solver.
    + rewrite IH. naive_solver.
Qed.

Lemma dict_keys_del k d k' :
  k' ∈ dict_keys (dict_del k d) ↔ k' ≠ k ∧ k' ∈ dict_keys d.
Proof.
  unfold dict_keys. induction d as [|[k0 v0] d IH]; simpl.
  - set_solver.
  - case_decide as Hk; simpl; rewrite ?elem_of_cons, IH.
    + subst. naive_solver.
    + naive_solver.
Qed.

Lemma dict_set_NoDup k v d :
  NoDup (dict_keys d) → NoDup (dict_keys (dict_set k v d)).
Proof.
  induction d as [|[k0 v0] d IH]; simpl.
  - intros _. apply NoDup_singleton.
  - unfold dict_keys in *. simpl. intros [Hnot Hnd]%NoDup_cons.
    case_decide as Hk; simpl; apply NoDup_cons.
    + subst. done.
    + split; [|by auto].
      intros [->|Hin]%(dict_keys_set k v d k0); [done|]. by apply Hnot.
Qed.

Lemma dict_del_NoDup k d :
  NoDup (dict_keys d) → NoDup (dict_keys (dict_del k d)).
Proof.
  induction d as [|[k0 v0] d IH]; simpl; [done|].
  unfold dict_keys in *. simpl. intros [Hnot Hnd]%NoDup_cons.
  case_decide as Hk; simpl; [by auto|].
  apply NoDup_cons. split; [|by auto].
  intros [_ Hin]%(dict_keys_del k d k0). by apply Hnot.
Qed.

Lemma dict_elem_key k v d : (k, v) ∈ d → k ∈ dict_keys d.
Proof. intros H. apply list_elem_of_fmap. by exists (k, v). Qed.
End pydict_facts.

(** ** The loops of [update_dv] *)

Lemma bind_Ok {A B} (m : result A) (f : A → result B) (b : B) :
  m ≫= f = Ok b → ∃ a, m = Ok a ∧ f a = Ok b.
Proof. destruct m as [a|e]; simpl; [eauto | done]. Qed.

Ltac bind_inv H :=
  let a := fresh "a" in
  let Ha := fresh "Ha" in
  apply bind_Ok in H as (a & Ha & H).

(** The entry [relax] returns is the one it started from, or a strictly
    cheaper one through one of the neighbors it visited. *)
Lemma relax_hop advs dest ns best res :
  relax advs dest ns best = Ok res →
  res = best ∨ (res.1 < best.1 ∧ ∃ v, res.2 = Some v ∧ v ∈ dict_keys ns).
Proof.
  revert best. induction ns as [|[v info] ns IH]; intros best; simpl.
  - intros [= ->]. by left.
  - intros H. bind_inv H. bind_inv H.
    apply IH in H. unfold dict_keys in *. simpl.
    case_decide as Hlt.
    + right. destruct H as [->|(Hlt' & w & Hw & Hin)]; simpl in *.
      * split; [done|]. exists v. split; [done|]. left.
      * split; [lia|]. exists w. split; [done|]. by right.
    + destruct H as [->|(Hlt' & w & Hw & Hin)]; [by left|].
      right. split; [done|]. exists w. split; [done|]. by right.
Qed.

Lemma route_for_hop r dest c nh :
  route_for r dest = Ok (Some (c, nh)) →
  c < INFINITY ∧ ∃ v, nh = Some v ∧ v ∈ dict_keys (neighbors r).
Proof.
  unfold route_for. intros H. bind_inv H.
  case_decide as Hlt; [|done]. injection H as <- <-.
  split; [done|].
  apply relax_hop in Ha as [->|(_ & v & Hv & Hin)]; simpl in *; [lia|eauto].
Qed.

Lemma fill_lookup_out r ds m m' d :
  fill r ds m = Ok m' → d ∉ ds ∨ d = self_addr r → m' !! d = m !! d.
Proof.
  revert m. induction ds as [|d0 ds IH]; intros m; simpl.
  - by intros [= ->].
  - case_decide as Hs.
    + intros H Hd. apply (IH _ H). destruct Hd as [Hd|Hd]; [|by right].
      left. intros ?. apply Hd. by right.
    + intros H Hd. bind_inv H. rewrite (IH _ H).
      * destruct a as [e|]; [|done]. apply lookup_insert_ne.
        destruct Hd as [Hd| ->]; [|done]. intros ->. apply Hd. left.
      * destruct Hd as [Hd|Hd]; [|by right].
        left. intros ?. apply Hd. by right.
Qed.

Lemma fill_lookup_in r ds m m' d :
  fill r ds m = Ok m' → d ∈ ds → d ≠ self_addr r →
  ∃ e, route_for r d = Ok e ∧ m' !! d = from_option Some (m !! d) e.
Proof.
  revert m. induction ds as [|d0 ds IH]; intros m; simpl.
  - by intros _ ?%elem_of_nil.
  - intros H Hin Hd. case_decide as Hs.
    + apply elem_of_cons in Hin as [->|Hin]; [done|]. by apply IH.
    + bind_inv H. destruct (decide (d ∈ ds)) as [Hds|Hds].
      * destruct (IH _ H Hds Hd) as (e & He & Hm'). exists e. split; [done|].
        rewrite Hm'. destruct e as [x|]; simpl; [done|].
        destruct (decide (d = d0)) as [->|Hne].
        -- rewrite He in Ha. by injection Ha as <-.
        -- destruct a; [|done]. by apply lookup_insert_ne.
      * apply elem_of_cons in Hin as [->|Hin]; [|done].
        exists a. split; [done|].
        rewrite (fill_lookup_out _ _ _ _ d0 H); [|by left].
        destruct a; simpl; [|done]. apply lookup_insert_eq.
Qed.

Lemma fill_Ok r ds m :
  (∀ d, d ∈ ds → d ≠ self_addr r → ∃ e, route_for r d = Ok e) →
  ∃ m', fill r ds m = Ok m'.
Proof.
  revert m. induction ds as [|d0 ds IH]; intros m Hok; simpl; [by eauto|].
  case_decide as Hs.
  - apply IH. intros d Hd. apply Hok. by right.
  - destruct (Hok d0) as [e He]; [left | done |]. rewrite He. simpl.
    apply IH. intros d Hd. apply Hok. by right.
Qed.

Lemma collect_keys_elem dvs acc s d :
  collect_keys dvs acc = Ok s →
  d ∈ s ↔ d ∈ acc ∨ ∃ m, PDict m ∈ dvs ∧ is_Some (m !! d).
Proof.
  revert acc. induction dvs as [|x dvs IH]; intros acc; simpl.
  - intros [= ->]. split; [by left|]. intros [?|(m & ?%elem_of_nil & _)]; done.
  - intros H. bind_inv H. rewrite (IH _ H).
    destruct x; simpl in Ha; try done. injection Ha as <-.
    rewrite elem_of_union, elem_of_dom. split.
    + intros [[?|?]|(m' & ? & ?)]; [by left | right | right].
      * exists m. split; [left | done].
      * exists m'. split; [by right | done].
    + intros [?|(m' & [Heq|?]%elem_of_cons & ?)].
      * by left; left.
      * injection Heq as ->. by left; right.
      * right. by exists m'.
Qed.

Lemma all_dests_elem r s d :
  all_dests r = Ok s →
  d ∈ s ↔ d = self_addr r ∨ candidate r d.
Proof.
  unfold all_dests, candidate. intros H.
  rewrite (collect_keys_elem _ _ _ _ H).
  rewrite elem_of_union, elem_of_singleton, elem_of_list_to_set.
  split.
  - intros [[?|?]|(m & Hm & ?)]; [by left | by right; left |].
    right; right. apply list_elem_of_fmap in Hm as ([v x] & Heq & Hvx).
    simpl in Heq. subst x. apply elem_of_map_to_list in Hvx. by exists v, m.
  - intros [?|[?|(v & m & Hv & ?)]]; [by left; left | by left; right |].
    right. exists m. split; [|done].
    apply list_elem_of_fmap. exists (v, PDict m). split; [done|].
    by apply elem_of_map_to_list.
Qed.

Lemma compute_new_dv_self r new_dv :
  compute_new_dv r = Ok new_dv →
  new_dv !! self_addr r = Some (0, Some (self_addr r)).
Proof.
  unfold compute_new_dv. intros H. bind_inv H.
  rewrite (fill_lookup_out _ _ _ _ (self_addr r) H); [|by right].
  apply lookup_singleton_eq.
Qed.

Lemma compute_new_dv_candidate r new_dv d :
  compute_new_dv r = Ok new_dv → d ≠ self_addr r → candidate r d →
  ∃ e, route_for r d = Ok e ∧ new_dv !! d = e.
Proof.
  unfold compute_new_dv. intros H Hd Hc. bind_inv H.
  destruct (fill_lookup_in _ _ _ _ d H) as (e & He & Hnew); [|done|].
  - apply elem_of_elements, (all_dests_elem _ _ _ Ha). by right.
  - exists e. split; [done|]. rewrite Hnew, lookup_singleton_ne by done.
    by destruct e.
Qed.

Lemma compute_new_dv_other r new_dv d e :
  compute_new_dv r = Ok new_dv → d ≠ self_addr r → new_dv !! d = Some e →
  route_for r d = Ok (Some e).
Proof.
  unfold compute_new_dv. intros H Hd He. bind_inv H.
  destruct (decide (d ∈ elements a)) as [Hin|Hout].
  - destruct (fill_lookup_in _ _ _ _ d H Hin Hd) as (e' & He' & Hnew).
    rewrite Hnew, lookup_singleton_ne in He by done.
    destruct e'; simpl in He; [|done]. by injection He as ->.
  - rewrite (fill_lookup_out _ _ _ _ d H), lookup_singleton_ne in He by auto.
    done.
Qed.

(** ** What a handler leaves behind *)

Lemma update_dv_state r :
  state (update_dv r) = r ∨
  ∃ new_dv, compute_new_dv r = Ok new_dv ∧
            state (update_dv r) = set_distance_vector r new_dv.
Proof.
  unfold update_dv. destruct (compute_new_dv r) as [new_dv|e]; [|by left].
  case_decide; [right; eauto | by left].
Qed.

Lemma except_malformed_state o : state (except_malformed o) = state o.
Proof. unfold except_malformed. by destruct (raised o) as [[]|]. Qed.

Lemma handle_packet_traceroute_state r p packet :
  is_traceroute packet = true → state (handle_packet r p packet) = r.
Proof.
  unfold handle_packet. intros ->.
  destruct (distance_vector r !! dst_addr packet) as [[c [nh|]]|]; [|done..].
  case_decide; [|done]. by destruct (dict_get nh (neighbors r)).
Qed.

Lemma update_dv_self_addr r : self_addr (state (update_dv r)) = self_addr r.
Proof. by destruct (update_dv_state r) as [->|(new_dv & _ & ->)]. Qed.

Lemma step_self_addr r ev : self_addr (state (step r ev)) = self_addr r.
Proof.
  destruct ev as [p packet|p endpoint c|p|t]; simpl.
  - destruct (is_traceroute packet) eqn:Ht.
    + by rewrite handle_packet_traceroute_state.
    + unfold handle_packet. rewrite Ht, except_malformed_state.
      destruct (json_loads (pcontent packet)); [|done].
      destruct (dict_mem _ _); [|done]. by rewrite update_dv_self_addr.
  - unfold handle_new_link. by rewrite update_dv_self_addr.
  - unfold handle_remove_link. destruct (find_port p (neighbors r)); [|done].
    case_decide; [done|]. by rewrite update_dv_self_addr.
  - unfold handle_time. by case_decide.
Qed.

Lemma run_snoc r evs ev : run r (evs ++ [ev]) = state (step (run r evs) ev).
Proof. unfold run. by rewrite foldl_app. Qed.

Lemma run_self_addr r evs : self_addr (run r evs) = self_addr r.
Proof.
  induction evs as [|ev evs IH] using rev_ind; [done|].
  by rewrite run_snoc, step_self_addr.
Qed.

(** A table [update_dv] has computed meets the invariant whatever the table
    before it was. *)
Lemma computed_table_inv r new_dv :
  compute_new_dv r = Ok new_dv → NoDup (dict_keys (neighbors r)) →
  table_inv (set_distance_vector r new_dv).
Proof.
  intros Hnew Hnd. split; simpl; [| | |done].
  - left. by apply compute_new_dv_self.
  - intros d c nh Hd. destruct (decide (d = self_addr r)) as [->|Hne].
    + rewrite (compute_new_dv_self _ _ Hnew) in Hd. injection Hd as <- <-.
      unfold INFINITY. lia.
    + apply (compute_new_dv_other _ _ _ _ Hnew Hne), route_for_hop in Hd. lia.
  - intros d c nh Hd Hne _.
    by apply (compute_new_dv_other _ _ _ _ Hnew Hne), route_for_hop in Hd as [_ ?].
Qed.

Lemma update_dv_table_inv r : table_inv r → table_inv (state (update_dv r)).
Proof.
  intros Hinv. destruct (update_dv_state r) as [->|(new_dv & Hnew & ->)]; [done|].
  apply computed_table_inv; [done|]. apply Hinv.
Qed.

Lemma withdraw_lookup endpoint (dv : gmap addr (Z * option addr)) d c nh :
  (withdraw endpoint <$> dv) !! d = Some (c, nh) →
  (c = INFINITY ∧ nh = None ∧ ∃ c0, dv !! d = Some (c0, Some endpoint)) ∨
  (dv !! d = Some (c, nh) ∧ nh ≠ Some endpoint).
Proof.
  rewrite lookup_fmap. destruct (dv !! d) as [[c0 nh0]|]; simpl; [|done].
  unfold withdraw. simpl. case_decide as Hnh.
  - intros [= <- <-]. subst. left. eauto.
  - intros [= <- <-]. by right.
Qed.

Lemma step_table_inv r ev : table_inv r → table_inv (state (step r ev)).
Proof.
  intros Hinv. destruct ev as [p packet|p endpoint c|p|t]; simpl.
  - destruct (is_traceroute packet) eqn:Ht.
    + by rewrite handle_packet_traceroute_state.
    + unfold handle_packet. rewrite Ht, except_malformed_state.
      destruct (json_loads (pcontent packet)); [|done].
      destruct (dict_mem _ _); [|done].
      apply update_dv_table_inv. by destruct Hinv.
  - apply update_dv_table_inv. destruct Hinv as [Hs Hle Hhop Hnd].
    split; simpl; [done | done | | by apply dict_set_NoDup].
    intros d c' nh Hd Hne Hlt.
    destruct (Hhop d c' nh Hd Hne Hlt) as (v & -> & Hv).
    exists v. split; [done|]. apply dict_keys_set. by right.
  - unfold handle_remove_link.
    destruct (find_port p (neighbors r)) as [endpoint|]; [|done].
    case_decide as Hempty; [done|].
    apply update_dv_table_inv. destruct Hinv as [Hs Hle Hhop Hnd].
    split; simpl; [| | | by apply dict_del_NoDup].
    + rewrite lookup_fmap.
      destruct Hs as [-> | ->]; cbn [fmap option_fmap option_map];
        unfold withdraw; case_decide; auto.
    + intros d c nh [(-> & _)|[Hd _]]%withdraw_lookup; [done|]. by eapply Hle.
    + intros d c nh [(-> & _)|[Hd Hnh]]%withdraw_lookup Hne Hlt; [lia|].
      destruct (Hhop d c nh Hd Hne Hlt) as (v & -> & Hv).
      exists v. split; [done|]. apply dict_keys_del. split; [congruence|done].
  - unfold handle_time. case_decide; [|done]. by destruct Hinv.
Qed.

Lemma init_table_inv a hb : table_inv (init a hb).
Proof.
  split; simpl.
  - left. apply lookup_singleton_eq.
  - intros d c nh [_ [= <- <-]]%lookup_singleton_Some. unfold INFINITY. lia.
  - intros d c nh [<- _]%lookup_singleton_Some. done.
  - apply NoDup_nil_2.
Qed.

Lemma run_table_inv a hb evs : table_inv (run (init a hb) evs).
Proof.
  induction evs as [|ev evs IH] using rev_ind; [apply init_table_inv|].
  rewrite run_snoc. by apply step_table_inv.
Qed.

(** ** Forwarding of data packets *)

(** C8: in every state a run can reach, the handler of a data (traceroute)
    packet leaves the router unchanged and raises nothing; it sends nothing
    when the destination is absent from the table, when its cost equals
    INFINITY, or when its next hop is none or not a key of [neighbors];
    otherwise its only send is the packet itself, unmodified, on the port
    recorded for the next hop. *)
Theorem forward_data_packet a hb evs p packet :
  is_traceroute packet = true →
  let r := run (init a hb) evs in
  let o := handle_packet r p packet in
  state o = r ∧ raised o = None ∧
  (distance_vector r !! dst_addr packet = None ∨
   (∃ c nh, distance_vector r !! dst_addr packet = Some (c, nh) ∧
            (c = INFINITY ∨ nh = None ∨
             ∃ v, nh = Some v ∧ dict_get v (neighbors r) = None)) →
   sent o = []) ∧
  (∀ c v info,
     distance_vector r !! dst_addr packet = Some (c, Some v) →
     c ≠ INFINITY → dict_get v (neighbors r) = Some info →
     sent o = [(port info, packet)]).
Proof.
  intros Ht r o. pose proof (run_table_inv a hb evs) as Hinv. fold r in Hinv.
  subst o. unfold handle_packet. rewrite Ht.
  destruct (distance_vector r !! dst_addr packet) as [[c [nh|]]|] eqn:Hdst.
  - pose proof (inv_le _ Hinv _ _ _ Hdst) as Hle.
    case_decide as Hlt.
    + destruct (dict_get nh (neighbors r)) as [info|] eqn:Hnh; simpl.
      * repeat split;
          [|intros c' v info' [= <- <-] _ Hget; rewrite Hnh in Hget;
            by injection Hget as <-].
        intros [?|(c' & nh' & [= <- <-] & [?|[?|(v & [= <-] & ?)]])];
          [done | lia | done | congruence].
      * repeat split. intros c' v info' [= <- <-] _ ?. congruence.
    + simpl. repeat split. intros c' v info' [= <- <-] ? _. lia.
  - simpl. repeat split. intros c' v info' [=].
  - simpl. repeat split. intros c' v info' [=].
Qed.

Lemma forward_data_packet_witness :
  let r := run (init "A" 10) [EvNewLink 1 "B" 3] in
  let packet := mkPacket TRACEROUTE "X" "B" (Garbled "ping") in
  sent (handle_packet r 7 packet) = [(1, packet)].
Proof.
  intros r packet.
  destruct (forward_data_packet "A" 10 [EvNewLink 1 "B" 3] 7 packet eq_refl)
    as (_ & _ & _ & Hforward).
  apply (Hforward 3 "B" (mkInfo 1 3)).
  - vm_compute. reflexivity.
  - unfold INFINITY. lia.
  - vm_compute. reflexivity.
Defined.

(** C10: in every state a run can reach in which the router's own address
    is not a key of [neighbors], a data packet addressed to the router itself
    is dropped: nothing is sent, nothing changes, nothing is raised. *)
Theorem data_packet_to_self_dropped a hb evs p packet :
  let r := run (init a hb) evs in
  dict_mem a (neighbors r) = false →
  is_traceroute packet = true →
  dst_addr packet = a →
  handle_packet r p packet = mkOutcome r [] None.
Proof.
  intros r Hmem Ht Hdst. pose proof (run_table_inv a hb evs) as Hinv.
  pose proof (run_self_addr (init a hb) evs) as Hself. simpl in Hself.
  fold r in Hinv, Hself. unfold handle_packet. rewrite Ht, Hdst.
  destruct (inv_self _ Hinv) as [Hs|Hs]; rewrite Hself in Hs; rewrite Hs.
  - case_decide; [|done].
    unfold dict_mem in Hmem. apply bool_decide_eq_false in Hmem.
    destruct (dict_get a (neighbors r)) eqn:Hget; [|done].
    exfalso. apply Hmem. eauto.
  - done.
Qed.

Lemma data_packet_to_self_dropped_witness :
  let r := run (init "A" 10) [EvNewLink 1 "B" 3] in
  let packet := mkPacket TRACEROUTE "B" "A" (Garbled "ping") in
  handle_packet r 1 packet = mkOutcome r [] None.
Proof.
  intros r packet.
  apply (data_packet_to_self_dropped "A" 10 [EvNewLink 1 "B" 3] 1 packet);
    reflexivity.
Defined.

(** ** Next hops are neighbors *)




(** ** Commit and broadcast *)

(** [update_dv] does not read the table it replaces. *)
Lemma fill_set_distance_vector r dv ds m :
  fill (set_distance_vector r dv) ds m = fill r ds m.
Proof.
  revert m. induction ds as [|d ds IH]; intros m; simpl; [done|].
  case_decide; [done|].
  change (route_for (set_distance_vector r dv) d) with (route_for r d).
  destruct (route_for r d) as [e|]; simpl; [|done]. apply IH.
Qed.

Lemma compute_new_dv_set_distance_vector r dv :
  compute_new_dv (set_distance_vector r dv) = compute_new_dv r.
Proof.
  unfold compute_new_dv.
  change (all_dests (set_distance_vector r dv)) with (all_dests r).
  destruct (all_dests r) as [s|]; simpl; [|done].
  apply fill_set_distance_vector.
Qed.

(** Two tables that differ do so at a key one of them holds. *)
Lemma table_neq_lookup (m1 m2 : gmap addr (Z * option addr)) :
  m1 ≠ m2 → ∃ d, m1 !! d ≠ m2 !! d.
Proof.
  intros Hne.
  destruct (decide (set_Exists (λ d, m1 !! d ≠ m2 !! d) (dom m1 ∪ dom m2)))
    as [(d & _ & Hd)|Hnone]; [by exists d|].
  exfalso. apply Hne, map_eq. intros d.
  destruct (decide (d ∈ dom m1 ∪ dom m2)) as [Hin|Hout].
  - destruct (decide (m1 !! d = m2 !! d)) as [|Hd]; [done|].
    exfalso. apply Hnone. by exists d.
  - apply not_elem_of_union in Hout as [H1 H2].
    apply not_elem_of_dom in H1, H2. congruence.
Qed.

(** C4, as stated: with the router's own entry left out of the
    comparison, the link-down of a link to the router's own address is a
    recomputation whose new table agrees with the previous one at every
    other destination, and yet commits and broadcasts.  [r] is the router
    as [handle_remove_link] hands it to [update_dv]. *)
Lemma self_entry_change_broadcasts :
  let r0 := run (init "A" 10) [EvNewLink 1 "A" 1; EvNewLink 2 "B" 1] in
  let r := mkRouter "A" 10 0
             (<[ "B" := (1, Some "B") ]> {[ "A" := (INFINITY, None) ]})
             [("B", mkInfo 2 1)] {[ "B" := PDict ∅ ]} in
  handle_remove_link r0 1 = update_dv r ∧
  ∃ new_dv, compute_new_dv r = Ok new_dv ∧
    (∀ d, d ≠ self_addr r → new_dv !! d = distance_vector r !! d) ∧
    sent (update_dv r) ≠ [] ∧ state (update_dv r) ≠ r.
Proof.
  intros r0 r. split; [vm_compute; reflexivity|].
  exists (<[ "B" := (1, Some "B") ]> {[ "A" := (0, Some "A") ]}).
  split; [vm_compute; reflexivity|]. split; [|split].
  - intros d Hd. simpl in Hd.
    assert (Hrest : delete "A" (<[ "B" := (1, Some "B") ]>
                      ({[ "A" := (0, Some "A") ]} : gmap addr (Z * option addr)))
                    = delete "A" (distance_vector r))
      by (vm_compute; reflexivity).
    apply (f_equal (λ m : gmap addr (Z * option addr), m !! d)) in Hrest.
    by rewrite !lookup_delete_ne in Hrest.
  - vm_compute. discriminate.
  - intros Heq.
    apply (f_equal (λ x, distance_vector x !! "A")) in Heq.
    vm_compute in Heq. discriminate.
Qed.

(** C4, amended: when [update_dv] has computed the table [new_dv], it
    raises nothing, leaves [new_dv] as the table and touches neither
    neighbors nor advertisements.  If [new_dv] differs from the table it
    found in any way, the entry of the router's own address included, it
    sends the broadcast of the new table, one packet to each neighbor;
    if the two are identical it leaves the router as it was and sends
    nothing.  So the router changes exactly when the tables differ, and with
    at least one neighbor something is sent exactly when they differ.  Where
    the entry of the router's own address was [(0, self)], the tables differ
    exactly when they differ at some other destination. *)
Theorem update_dv_commit_iff_changed r new_dv :
  compute_new_dv r = Ok new_dv →
  let o := update_dv r in
  raised o = None ∧
  distance_vector (state o) = new_dv ∧
  neighbors (state o) = neighbors r ∧
  neighbor_dvs (state o) = neighbor_dvs r ∧
  (new_dv ≠ distance_vector r →
   sent o = broadcast_dv (set_distance_vector r new_dv) ∧
   (λ s : send_call, dst_addr s.2) <$> sent o = dict_keys (neighbors r)) ∧
  (new_dv = distance_vector r → o = mkOutcome r [] None) ∧
  (state o = r ↔ new_dv = distance_vector r) ∧
  (neighbors r ≠ [] → (sent o ≠ [] ↔ new_dv ≠ distance_vector r)) ∧
  (distance_vector r !! self_addr r = Some (0, Some (self_addr r)) →
   (new_dv ≠ distance_vector r ↔
    ∃ d, d ≠ self_addr r ∧ new_dv !! d ≠ distance_vector r !! d)).
Proof.
  intros Hnew o.
  assert (Hdst : ∀ r1, (λ s : send_call, dst_addr s.2) <$> broadcast_dv r1
                       = dict_keys (neighbors r1)).
  { intros r1. unfold broadcast_dv, dict_keys. rewrite <- list_fmap_compose.
    by apply list_fmap_ext. }
  assert (Ho : (new_dv ≠ distance_vector r ∧
                o = mkOutcome (set_distance_vector r new_dv)
                      (broadcast_dv (set_distance_vector r new_dv)) None) ∨
               (new_dv = distance_vector r ∧ o = mkOutcome r [] None)).
  { subst o. unfold update_dv. rewrite Hnew.
    destruct (decide (new_dv = distance_vector r)) as [Heq|Hne].
    - right. split; [done|]. rewrite decide_False; [done|].
      intros Hdiff. by apply Hdiff.
    - left. split; [done|]. by rewrite decide_True. }
  destruct Ho as [[Hne ->]|[Heq ->]]; simpl.
  - do 4 (split; [done|]).
    split; [intros _; split; [done | exact (Hdst (set_distance_vector r new_dv))]|].
    split; [done|].
    split.
    { split; [|done]. intros Hsame.
      apply (f_equal distance_vector) in Hsame. done. }
    split.
    { intros Hns. split; [done|]. intros _ Hsent.
      apply (f_equal (fmap (λ s : send_call, dst_addr s.2))) in Hsent.
      rewrite Hdst in Hsent. simpl in Hsent. unfold dict_keys in Hsent.
      by apply fmap_nil_inv in Hsent. }
    intros Hself. split; [|done]. intros [d Hd]%table_neq_lookup.
    exists d. split; [|done].
    intros ->. apply Hd. rewrite Hself. by apply compute_new_dv_self.
  - do 4 (split; [done|]).
    split; [done|]. split; [done|]. split; [done|].
    split.
    { intros _. split; [done|]. intros Hdiff. by destruct Hdiff. }
    intros _. split; [done|]. intros (d & _ & Hd). by rewrite Heq in Hd.
Qed.

Lemma update_dv_commit_iff_changed_witness :
  let r := mkRouter "A" 10 0 {[ "A" := (0, Some "A") ]} [("B", mkInfo 1 3)]
             {[ "B" := PDict ∅ ]} in
  let new_dv : gmap addr (Z * option addr) :=
    <[ "B" := (3, Some "B") ]> {[ "A" := (0, Some "A") ]} in
  distance_vector (state (update_dv r)) = new_dv ∧
  (λ s : send_call, dst_addr s.2) <$> sent (update_dv r) = ["B"].
Proof.
  intros r new_dv.
  assert (Hnew : compute_new_dv r = Ok new_dv) by (vm_compute; reflexivity).
  destruct (update_dv_commit_iff_changed r new_dv Hnew)
    as (_ & Htable & _ & _ & Hcommit & _).
  split; [exact Htable|]. apply Hcommit. intros Heq.
  assert (Hb : new_dv !! "B" = distance_vector r !! "B") by (by rewrite Heq).
  vm_compute in Hb. discriminate.
Defined.

(** C9: a second [update_dv] on the state the first one left, nothing else
    having changed, leaves that state as it is, table included, and sends
    nothing. *)
Theorem update_dv_idempotent r :
  let o1 := update_dv r in
  update_dv (state o1) = mkOutcome (state o1) [] (raised o1).
Proof.
  unfold update_dv. destruct (compute_new_dv r) as [new_dv|e] eqn:Hnew.
  - case_decide as Hne; simpl.
    + rewrite compute_new_dv_set_distance_vector, Hnew. simpl.
      rewrite decide_False; [done|]. intros Hdiff. by apply Hdiff.
    + rewrite Hnew. rewrite decide_False; [done|]. intros Hdiff. by apply Hdiff.
  - simpl. by rewrite Hnew.
Qed.

(** ** Broadcast *)

Lemma poison_fold_lookup v (base : gmap addr Z) (dv : gmap addr (Z * option addr)) d :
  map_fold (poison_step v) base dv !! d =
    match dv !! d with
    | Some e => if decide (e.2 = Some v ∧ d ≠ v) then Some INFINITY else base !! d
    | None => base !! d
    end.
Proof.
  apply (map_fold_weak_ind (λ acc m,
    acc !! d = match m !! d with
               | Some e => if decide (e.2 = Some v ∧ d ≠ v) then Some INFINITY
                           else base !! d
               | None => base !! d
               end)).
  - by rewrite lookup_empty.
  - intros i x m acc Hi IH. unfold poison_step.
    destruct (decide (i = d)) as [->|Hne].
    + rewrite (lookup_insert_eq m).
      destruct (decide (x.2 = Some v ∧ d ≠ v)).
      * by rewrite lookup_insert_eq.
      * by rewrite IH, Hi.
    + rewrite (lookup_insert_ne m) by done.
      destruct (decide (x.2 = Some v ∧ i ≠ v)); [|done].
      by rewrite lookup_insert_ne.
Qed.

Lemma poisoned_view_lookup r v d :
  poisoned_view r v !! d =
    match distance_vector r !! d with
    | Some (c, nh) => Some (if decide (nh = Some v ∧ d ≠ v) then INFINITY else c)
    | None => None
    end.
Proof.
  unfold poisoned_view. rewrite poison_fold_lookup.
  unfold get_dv_for_broadcast. rewrite lookup_fmap.
  destruct (distance_vector r !! d) as [[c nh]|]; simpl; [|done].
  by destruct (decide (nh = Some v ∧ d ≠ v)).
Qed.

Lemma sends_to_other (f : addr → NeighborInfo → Packet) v ns :
  (∀ k info, dst_addr (f k info) = k) → v ∉ dict_keys ns →
  filter (λ s : send_call, dst_addr s.2 = v)
    (map (λ item : addr * NeighborInfo, (port item.2, f item.1 item.2)) ns) = [].
Proof.
  intros Hf. unfold dict_keys.
  induction ns as [|[k info] ns IH]; simpl; [done|].
  intros Hv. apply not_elem_of_cons in Hv as [Hne Hv].
  rewrite filter_cons_False by (simpl; rewrite Hf; congruence). auto.
Qed.

Lemma sends_to_neighbor (f : addr → NeighborInfo → Packet) v info ns :
  (∀ k info, dst_addr (f k info) = k) → NoDup (dict_keys ns) →
  dict_get v ns = Some info →
  filter (λ s : send_call, dst_addr s.2 = v)
    (map (λ item : addr * NeighborInfo, (port item.2, f item.1 item.2)) ns)
  = [(port info, f v info)].
Proof.
  intros Hf. unfold dict_keys.
  induction ns as [|[k i] ns IH]; simpl; [done|].
  intros [Hk Hnd]%NoDup_cons. case_decide as Hv.
  - intros [= ->]. subst k.
    rewrite filter_cons_True by (simpl; by rewrite Hf).
    f_equal. by apply sends_to_other.
  - intros Hget. rewrite filter_cons_False by (simpl; rewrite Hf; congruence).
    auto.
Qed.

(** C3: in every state a run can reach, [broadcast_dv] sends one packet
    per neighbor, in the order of [neighbors]; the only packet addressed to a
    neighbor [v] goes out on the port recorded for [v], is a routing packet
    from the router to [v], and its payload holds, for every destination [d]
    of the table and for no other, INFINITY where the next hop of [d] is [v]
    and [d] is not [v], and the cost of the table otherwise. *)
Theorem broadcast_dv_poisoned_reverse a hb evs v info :
  let r := run (init a hb) evs in
  dict_get v (neighbors r) = Some info →
  (λ s : send_call, dst_addr s.2) <$> broadcast_dv r = dict_keys (neighbors r) ∧
  ∃ payload : gmap addr Z,
    filter (λ s : send_call, dst_addr s.2 = v) (broadcast_dv r) =
      [(port info, mkPacket ROUTING a v (json_dumps (PDict (PInt <$> payload))))] ∧
    ∀ d, payload !! d =
           match distance_vector r !! d with
           | Some (c, nh) =>
               Some (if decide (nh = Some v ∧ d ≠ v) then INFINITY else c)
           | None => None
           end.
Proof.
  intros r Hget. pose proof (run_table_inv a hb evs) as Hinv.
  pose proof (run_self_addr (init a hb) evs) as Hself. simpl in Hself.
  fold r in Hinv, Hself. split.
  - unfold broadcast_dv, dict_keys. rewrite <- list_fmap_compose.
    by apply list_fmap_ext.
  - exists (poisoned_view r v). split; [|apply poisoned_view_lookup].
    unfold broadcast_dv.
    rewrite (sends_to_neighbor (λ k _, dv_packet r k) v info);
      [| done | apply Hinv | done].
    unfold dv_packet. by rewrite Hself.
Qed.

Lemma broadcast_dv_poisoned_reverse_witness :
  let r := run (init "A" 10) [EvNewLink 1 "B" 3; EvNewLink 2 "C" 1] in
  (λ s : send_call, dst_addr s.2) <$> broadcast_dv r = ["B"; "C"] ∧
  ∃ payload : gmap addr Z,
    filter (λ s : send_call, dst_addr s.2 = "B") (broadcast_dv r) =
      [(1, mkPacket ROUTING "A" "B" (json_dumps (PDict (PInt <$> payload))))] ∧
    ∀ d, payload !! d =
           match distance_vector r !! d with
           | Some (c, nh) =>
               Some (if decide (nh = Some "B" ∧ d ≠ "B") then INFINITY else c)
           | None => None
           end.
Proof.
  intros r.
  apply (broadcast_dv_poisoned_reverse "A" 10
           [EvNewLink 1 "B" 3; EvNewLink 2 "C" 1] "B" (mkInfo 1 3)).
  reflexivity.
Defined.

(** ** The Bellman-Ford step *)

Lemma foldr_min_shift e b l :
  foldr Z.min (Z.min e b) l = Z.min e (foldr Z.min b l).
Proof. induction l as [|x l IH]; simpl; [done|]. rewrite IH. lia. Qed.

Lemma foldr_min_le b l :
  foldr Z.min b l ≤ b ∧ ∀ x, x ∈ l → foldr Z.min b l ≤ x.
Proof.
  induction l as [|y l [IHb IHl]]; simpl.
  - split; [lia|]. by intros x ?%elem_of_nil.
  - split; [lia|]. intros x [->|Hx]%elem_of_cons; [lia|].
    specialize (IHl x Hx). lia.
Qed.

Lemma adverts_wf_read r v d :
  adverts_wf r →
  (if decide (d = v) then Ok (PInt 0)
   else py_get (default (PDict ∅) (neighbor_dvs r !! v)) d (PInt INFINITY))
  = Ok (PInt (advertisedCost r v d)).
Proof.
  intros Hwf. unfold advertisedCost. case_decide; [done|].
  destruct (neighbor_dvs r !! v) as [x|] eqn:Hv; simpl.
  - specialize (Hwf v x Hv). simpl in Hwf.
    destruct x as [| | | | |m]; simpl in Hwf; try done.
    apply bool_decide_unpack in Hwf. simpl.
    destruct (m !! d) as [y|] eqn:Hd; simpl; [|done].
    specialize (Hwf d y Hd). simpl in Hwf. by destruct y.
  - by rewrite lookup_empty.
Qed.

Lemma relax_spec r d ns best :
  adverts_wf r →
  ∃ res, relax (neighbor_dvs r) d ns best = Ok res ∧
         res.1 = foldr Z.min best.1 (estimate r d <$> ns) ∧
         (res = best ∨ ∃ item, item ∈ ns ∧ res = (estimate r d item, Some item.1)).
Proof.
  intros Hwf. revert best. induction ns as [|[v info] ns IH]; intros best; simpl.
  - exists best. eauto.
  - rewrite (adverts_wf_read r v d Hwf). simpl.
    fold (estimate r d (v, info)).
    destruct (IH (if decide (estimate r d (v, info) < best.1)
                  then (estimate r d (v, info), Some v) else best))
      as (res & Hres & Hmin & Hwho).
    exists res. split; [done|]. split.
    + rewrite Hmin. case_decide; simpl.
      * rewrite <- foldr_min_shift. f_equal. lia.
      * rewrite <- foldr_min_shift. f_equal. lia.
    + destruct Hwho as [->|(item & Hitem & ->)].
      * case_decide; [|by left]. right. exists (v, info). split; [left|done].
      * right. exists item. split; [by right|done].
Qed.

Lemma newCost_le r d :
  newCost r d ≤ INFINITY ∧
  ∀ item, item ∈ neighbors r → newCost r d ≤ estimate r d item.
Proof.
  unfold newCost.
  destruct (foldr_min_le INFINITY (estimate r d <$> neighbors r)) as [Hb Hl].
  split; [done|]. intros item Hitem. apply Hl.
  apply list_elem_of_fmap. by exists item.
Qed.

Lemma route_for_spec r d :
  adverts_wf r →
  ∃ e, route_for r d = Ok e ∧
       (newCost r d < INFINITY →
        ∃ item, item ∈ neighbors r ∧ estimate r d item = newCost r d ∧
                e = Some (newCost r d, Some item.1)) ∧
       (newCost r d = INFINITY → e = None).
Proof.
  intros Hwf. unfold route_for.
  destruct (relax_spec r d (neighbors r) (INFINITY, None) Hwf)
    as (res & -> & Hmin & Hwho).
  simpl in *. fold (newCost r d) in Hmin. destruct (newCost_le r d) as [Hle _].
  eexists. split; [done|]. rewrite Hmin, Z.min_l by done. split.
  - intros Hlt. rewrite decide_True by done.
    destruct Hwho as [->|(item & Hitem & ->)]; simpl in *; [lia|].
    exists item. by rewrite Hmin.
  - intros Heq. rewrite decide_False by lia. done.
Qed.

Lemma collect_keys_Ok dvs acc :
  Forall (λ x, is_cost_map x) dvs → ∃ s, collect_keys dvs acc = Ok s.
Proof.
  intros Hall. revert acc.
  induction Hall as [|x dvs Hx _ IH]; intros acc; simpl; [by eauto|].
  destruct x; try done. simpl. apply IH.
Qed.

Lemma compute_new_dv_Ok r :
  adverts_wf r → ∃ new_dv, compute_new_dv r = Ok new_dv.
Proof.
  intros Hwf. unfold compute_new_dv, all_dests.
  destruct (collect_keys_Ok (map_to_list (neighbor_dvs r)).*2
              ({[self_addr r]} ∪ list_to_set (dict_keys (neighbors r))))
    as [s ->].
  - apply Forall_fmap, Forall_forall. intros [v x] Hvx%elem_of_map_to_list.
    by apply (Hwf v x).
  - simpl. apply fill_Ok. intros d _ _.
    destruct (route_for_spec r d Hwf) as (e & -> & _). eauto.
Qed.

(** C1: on advertisements that map destinations to integer costs,
    [update_dv] returns normally and for every candidate destination [d]
    other than the router itself leaves the table as section 4.5 says:
    [newCost r d], the minimum over the neighbors of
    [estimate = c(x,v) + advertisedCost(v,d)] clamped to INFINITY, is at most
    INFINITY and at most every neighbor's estimate; when it is below
    INFINITY the entry of [d] is that cost with a neighbor whose estimate
    equals it as next hop; when it equals INFINITY the table has no entry
    for [d]. *)
Theorem update_dv_bellman_ford r d :
  adverts_wf r → d ≠ self_addr r → candidate r d →
  let o := update_dv r in
  raised o = None ∧
  newCost r d ≤ INFINITY ∧
  (∀ item, item ∈ neighbors r → newCost r d ≤ estimate r d item) ∧
  (newCost r d < INFINITY →
   ∃ item, item ∈ neighbors r ∧ estimate r d item = newCost r d ∧
           distance_vector (state o) !! d = Some (newCost r d, Some item.1)) ∧
  (newCost r d = INFINITY → distance_vector (state o) !! d = None).
Proof.
  intros Hwf Hd Hcand o.
  destruct (compute_new_dv_Ok r Hwf) as [new_dv Hnew].
  destruct (compute_new_dv_candidate r new_dv d Hnew Hd Hcand) as (e & He & Hlook).
  destruct (route_for_spec r d Hwf) as (e' & He' & Hlt & Heq).
  rewrite He in He'. injection He' as <-.
  assert (Hdv : distance_vector (state o) = new_dv ∧ raised o = None).
  { subst o. unfold update_dv. rewrite Hnew. case_decide as Hne; [done|].
    simpl. split; [|done].
    destruct (decide (new_dv = distance_vector r)) as [->|Hdiff]; [done|].
    by destruct Hne. }
  destruct Hdv as [-> ->]. destruct (newCost_le r d) as [Hle Hall].
  repeat split; [done | done | |].
  - intros Hc. destruct (Hlt Hc) as (item & Hitem & Hest & ->). eauto.
  - intros Hc. by rewrite Hlook, (Heq Hc).
Qed.

Lemma update_dv_bellman_ford_witness :
  let r := run (init "A" 10)
             [EvNewLink 1 "C" 1; EvNewLink 2 "B" 5;
              EvPacket 1 (mkPacket ROUTING "C" "A"
                            (Json (PDict {[ "B" := PInt 1; "D" := PInt 15 ]})))] in
  (∃ item, item ∈ neighbors r ∧ estimate r "B" item = newCost r "B" ∧
           distance_vector (state (update_dv r)) !! "B"
           = Some (newCost r "B", Some item.1)) ∧
  distance_vector (state (update_dv r)) !! "D" = None.
Proof.
  intros r.
  assert (Hwf : adverts_wf r).
  { apply (bool_decide_unpack _). vm_compute. exact I. }
  split.
  - apply (update_dv_bellman_ford r "B" Hwf).
    + discriminate.
    + left. vm_compute. right. left.
    + vm_compute. reflexivity.
  - apply (update_dv_bellman_ford r "D" Hwf).
    + discriminate.
    + right. exists "C", {[ "B" := PInt 1; "D" := PInt 15 ]}.
      split; [vm_compute; reflexivity|]. vm_compute. eauto.
    + vm_compute. reflexivity.
Defined.

(** ** The range of the stored costs *)

Section pydict_elems.
Context {V : Type}.
Implicit Types (d : list (addr * V)) (k : addr) (v : V).

Lemma dict_set_elem k v d k' v' :
  (k', v') ∈ dict_set k v d → (k', v') = (k, v) ∨ (k', v') ∈ d.
Proof.
  induction d as [|[k0 v0] d IH]; simpl.
  - intros ?%list_elem_of_singleton. by left.
  - case_decide; intros [Heq|Hin]%elem_of_cons.
    + by left.
    + right. by right.
    + right. rewrite Heq. left.
    + destruct (IH Hin) as [?|?]; [by left | right; by right].
Qed.

Lemma dict_del_elem k d k' v' : (k', v') ∈ dict_del k d → (k', v') ∈ d.
Proof.
  induction d as [|[k0 v0] d IH]; simpl; [done|].
  case_decide.
  - intros ?. right. auto.
  - intros [Heq|?]%elem_of_cons; [rewrite Heq; left | right; auto].
Qed.
End pydict_elems.

Lemma nonneg_cost_PInt z : 0 ≤ z → nonneg_cost (PInt z).
Proof. intros Hz. unfold nonneg_cost. by apply bool_decide_pack. Qed.

Lemma relax_nonneg advs d ns best res :
  map_Forall (λ _ x, no_negative_cost x) advs →
  (∀ v info, (v, info) ∈ ns → 0 ≤ cost info) →
  0 ≤ best.1 →
  relax advs d ns best = Ok res → 0 ≤ res.1.
Proof.
  intros Hadv. revert best.
  induction ns as [|[v info] ns IH]; intros best Hns Hbest; simpl.
  - by intros [= <-].
  - intros H. bind_inv H. bind_inv H. rename a into y, a0 into total.
    assert (Hy : nonneg_cost y).
    { destruct (decide (d = v)).
      - injection Ha as <-. by apply nonneg_cost_PInt.
      - destruct (advs !! v) as [x|] eqn:Hv; simpl in Ha.
        + specialize (Hadv v x Hv). simpl in Hadv.
          destruct x as [| | | | |m]; simpl in Ha; try done.
          injection Ha as <-. apply bool_decide_unpack in Hadv.
          destruct (m !! d) as [y|] eqn:Hd; simpl.
          * by apply (Hadv d y).
          * done.
        + rewrite lookup_empty in Ha. injection Ha as <-.
          by apply nonneg_cost_PInt. }
    assert (Hcost : 0 ≤ cost info) by (apply (Hns v); left).
    assert (Htotal : 0 ≤ total).
    { destruct y as [|b|z| | |]; simpl in Ha0; try done.
      - injection Ha0 as <-. destruct b; simpl; lia.
      - injection Ha0 as <-. apply bool_decide_unpack in Hy. lia. }
    apply IH in H; [done | |].
    + intros w i Hw. apply (Hns w). by right.
    + by destruct (decide (total < best.1)).
Qed.

Lemma computed_nonneg r new_dv d c nh :
  map_Forall (λ _ x, no_negative_cost x) (neighbor_dvs r) →
  (∀ v info, (v, info) ∈ neighbors r → 0 ≤ cost info) →
  compute_new_dv r = Ok new_dv → new_dv !! d = Some (c, nh) → 0 ≤ c.
Proof.
  intros Hadv Hns Hnew Hd. destruct (decide (d = self_addr r)) as [->|Hne].
  - rewrite (compute_new_dv_self _ _ Hnew) in Hd. by injection Hd as <- <-.
  - apply (compute_new_dv_other _ _ _ _ Hnew Hne) in Hd.
    unfold route_for in Hd. bind_inv Hd.
    apply relax_nonneg in Ha; [|done|done|simpl; unfold INFINITY; lia].
    case_decide; [|done]. injection Hd as <- <-. unfold INFINITY. lia.
Qed.

Lemma update_dv_nonneg_inv r : nonneg_inv r → nonneg_inv (state (update_dv r)).
Proof.
  intros [Hge Hlink Hadv].
  destruct (update_dv_state r) as [->|(new_dv & Hnew & ->)]; [done|].
  split; simpl; [|done|done].
  intros d c nh. by apply (computed_nonneg r).
Qed.

Lemma step_nonneg_inv r ev :
  event_nonneg ev → nonneg_inv r → nonneg_inv (state (step r ev)).
Proof.
  intros Hev Hinv. destruct ev as [p packet|p endpoint c|p|t]; simpl in *.
  - destruct (is_traceroute packet) eqn:Ht.
    + by rewrite handle_packet_traceroute_state.
    + unfold handle_packet. rewrite Ht, except_malformed_state.
      destruct (json_loads (pcontent packet)) as [x|]; [|done].
      destruct (dict_mem _ _); [|done].
      apply update_dv_nonneg_inv. destruct Hinv as [Hge Hlink Hadv].
      split; simpl; [done|done|]. by apply map_Forall_insert_2.
  - apply update_dv_nonneg_inv. destruct Hinv as [Hge Hlink Hadv].
    apply bool_decide_unpack in Hev.
    split; simpl; [done| |].
    + intros v info [[= -> ->]|?]%dict_set_elem; [done|]. by apply (Hlink v).
    + apply map_Forall_insert_2; [|done].
      simpl. apply bool_decide_pack, map_Forall_empty.
  - unfold handle_remove_link.
    destruct (find_port p (neighbors r)) as [endpoint|]; [|done].
    case_decide; [done|].
    apply update_dv_nonneg_inv. destruct Hinv as [Hge Hlink Hadv].
    split; simpl.
    + intros d c nh [(-> & _)|[Hd _]]%withdraw_lookup; [done|]. by eapply Hge.
    + intros v info ?%dict_del_elem. by apply (Hlink v).
    + by apply map_Forall_delete.
  - unfold handle_time. case_decide; [|done]. by destruct Hinv.
Qed.

Lemma run_nonneg_inv a hb evs :
  forallb event_nonneg evs = true → nonneg_inv (run (init a hb) evs).
Proof.
  induction evs as [|ev evs IH] using rev_ind; intros Hevs.
  - split; simpl.
    + by intros d c nh [_ [= <- <-]]%lookup_singleton_Some.
    + by intros v info ?%elem_of_nil.
    + apply map_Forall_empty.
  - rewrite forallb_app in Hevs. apply andb_true_iff in Hevs as [Hevs Hev].
    simpl in Hev. rewrite andb_true_r in Hev.
    rewrite run_snoc. apply step_nonneg_inv; [by rewrite Hev | auto].
Qed.

(** C7, as stated: a neighbor that advertises a negative cost makes the
    router store one, although the link cost is not negative. *)
Lemma negative_cost_stored :
  let r := run (init "A" 10)
             [EvNewLink 1 "C" 1;
              EvPacket 1 (mkPacket ROUTING "C" "A"
                            (Json (PDict {[ "D" := PInt (-5) ]})))] in
  ¬ (∀ d c nh, distance_vector r !! d = Some (c, nh) → 0 ≤ c ≤ INFINITY).
Proof.
  intros r Hall.
  assert (Hd : distance_vector r !! "D" = Some (-4, Some "C"))
    by (vm_compute; reflexivity).
  apply Hall in Hd. lia.
Qed.

(** C7, amended: in every state a run can reach, whatever was advertised,
    every cost stored in the routing table is at most INFINITY; and when
    the link costs of the run are not negative and its routing packets
    advertise no negative cost, every stored cost is at least 0 as well. *)
Theorem table_costs_in_range a hb evs d c nh :
  distance_vector (run (init a hb) evs) !! d = Some (c, nh) →
  c ≤ INFINITY ∧ (forallb event_nonneg evs = true → 0 ≤ c).
Proof.
  intros Hd. split.
  - by apply (inv_le _ (run_table_inv a hb evs) d c nh).
  - intros Hevs. by apply (inv_ge _ (run_nonneg_inv a hb evs Hevs) d c nh).
Qed.

Lemma table_costs_in_range_witness : -4 ≤ INFINITY ∧ 0 ≤ 3 ≤ INFINITY.
Proof.
  destruct (table_costs_in_range "A" 10
              [EvNewLink 1 "C" 1;
               EvPacket 1 (mkPacket ROUTING "C" "A"
                             (Json (PDict {[ "D" := PInt (-5) ]})))]
              "D" (-4) (Some "C")) as [Hle _]; [vm_compute; reflexivity|].
  destruct (table_costs_in_range "A" 10
              [EvNewLink 1 "C" 1;
               EvPacket 1 (mkPacket ROUTING "C" "A"
                             (Json (PDict {[ "D" := PInt 2 ]})))]
              "D" 3 (Some "C")) as [Hle' Hge]; [vm_compute; reflexivity|].
  split; [exact Hle|]. split; [|exact Hle']. apply Hge. vm_compute. reflexivity.
Defined.

(** ** Payloads that are JSON but no cost mapping *)

(** C2: text that is not JSON is caught and dropped, but a payload that
    decodes to a list is stored as the neighbor's advertisement before
    [update_dv] fails on its [keys()]; the [AttributeError] is not among the
    exceptions the handler catches, so it escapes, and [neighbor_dvs] has
    changed. *)
Theorem handle_packet_json_list_escapes :
  let r := run (init "A" 10) [EvNewLink 1 "B" 3] in
  let garbled := mkPacket ROUTING "B" "A" (Garbled "{oops") in
  let listed := mkPacket ROUTING "B" "A" (Json (PList [PInt 1; PInt 2])) in
  handle_packet r 1 garbled = mkOutcome r [] None ∧
  raised (handle_packet r 1 listed) = Some AttributeError ∧
  neighbor_dvs r !! "B" = Some (PDict ∅) ∧
  neighbor_dvs (state (handle_packet r 1 listed)) !! "B"
    = Some (PList [PInt 1; PInt 2]) ∧
  raised (step (state (handle_packet r 1 listed)) (EvNewLink 2 "C" 1))
    = Some AttributeError.
Proof. intros r garbled listed. repeat split; vm_compute; reflexivity. Qed.

(** ** Link-up without a broadcast *)

(** C6: a link-up that does not change the table sends nothing.  Here the
    router reaches B through C at cost 2; the new direct link to B costs 5,
    the table stays as it was, and B, the new neighbor, is sent no routing
    packet. *)
Theorem handle_new_link_silent :
  let r := run (init "A" 10)
             [EvNewLink 1 "C" 1;
              EvPacket 1 (mkPacket ROUTING "C" "A"
                            (Json (PDict {[ "B" := PInt 1 ]})))] in
  let o := handle_new_link r 2 "B" 5 in
  sent o = [] ∧ raised o = None ∧
  dict_get "B" (neighbors (state o)) = Some (mkInfo 2 5) ∧
  distance_vector (state o) = distance_vector r.
Proof. intros r o. repeat split; vm_compute; reflexivity. Qed.


(** ** More about the handlers *)

Section pydict_updates.
Context {V : Type}.
Implicit Types (d : list (addr * V)) (k : addr) (v : V).

Lemma dict_get_set k v d k' :
  dict_get k' (dict_set k v d) = if decide (k' = k) then Some v else dict_get k' d.
Proof.
  induction d as [|[k0 v0] d IH]; simpl.
  - destruct (decide (k' = k)); done.
  - destruct (decide (k = k0)) as [->|Hk]; simpl.
    + destruct (decide (k' = k0)); done.
    + rewrite IH. destruct (decide (k' = k0)) as [->|]; [|done].
      by rewrite decide_False by congruence.
Qed.

Lemma dict_get_del k d k' :
  dict_get k' (dict_del k d) = if decide (k' = k) then None else dict_get k' d.
Proof.
  induction d as [|[k0 v0] d IH]; simpl.
  - destruct (decide (k' = k)); done.
  - destruct (decide (k = k0)) as [->|Hk]; simpl.
    + rewrite IH. destruct (decide (k' = k0)); done.
    + rewrite IH. destruct (decide (k' = k0)) as [->|]; [|done].
      by rewrite decide_False by congruence.
Qed.

Lemma dict_del_set_fresh k v d :
  dict_get k d = None → dict_del k (dict_set k v d) = d.
Proof.
  induction d as [|[k0 v0] d IH]; simpl.
  - intros _. by rewrite decide_True.
  - destruct (decide (k = k0)) as [->|Hk]; [done|]. intros Hget. simpl.
    rewrite decide_False by done. f_equal. auto.
Qed.
End pydict_updates.

Lemma find_port_elem p ns v :
  find_port p ns = Some v → ∃ info, (v, info) ∈ ns ∧ port info = p.
Proof.
  induction ns as [|[k info] ns IH]; simpl; [done|].
  case_decide as Hp.
  - intros [= <-]. exists info. split; [left | done].
  - intros (i & Hi & ?)%IH. exists i. split; [by right | done].
Qed.

Lemma find_port_None p ns :
  find_port p ns = None ↔ ∀ v info, (v, info) ∈ ns → port info ≠ p.
Proof.
  induction ns as [|[k info] ns IH]; simpl.
  - split; [|done]. by intros _ v i ?%elem_of_nil.
  - case_decide as Hp.
    + split; [done|]. intros Hall. exfalso. apply (Hall k info); [left | done].
    + rewrite IH. split.
      * intros Hall v i [[= -> ->]|?]%elem_of_cons; [done | by eapply Hall].
      * intros Hall v i ?. apply (Hall v). by right.
Qed.

Lemma find_port_set_fresh p c endpoint ns :
  (∀ v info, (v, info) ∈ ns → port info ≠ p) →
  find_port p (dict_set endpoint (mkInfo p c) ns) = Some endpoint.
Proof.
  induction ns as [|[k info] ns IH]; simpl; intros Hall.
  - by rewrite decide_True.
  - destruct (decide (endpoint = k)) as [->|Hk]; simpl.
    + by rewrite decide_True.
    + rewrite decide_False by (apply (Hall k); left).
      apply IH. intros v i ?. apply (Hall v). by right.
Qed.

(** [update_dv] writes nothing but the table. *)
Lemma update_dv_frame r :
  self_addr (state (update_dv r)) = self_addr r ∧
  neighbors (state (update_dv r)) = neighbors r ∧
  neighbor_dvs (state (update_dv r)) = neighbor_dvs r ∧
  last_time (state (update_dv r)) = last_time r ∧
  heartbeat_time (state (update_dv r)) = heartbeat_time r.
Proof. by destruct (update_dv_state r) as [->|(new_dv & _ & ->)]. Qed.

Lemma update_dv_returns r :
  raised (update_dv r) = None →
  ∃ new_dv, compute_new_dv r = Ok new_dv ∧
            distance_vector (state (update_dv r)) = new_dv.
Proof.
  unfold update_dv. destruct (compute_new_dv r) as [new_dv|e]; [|done].
  intros _. exists new_dv. split; [done|].
  case_decide as Hne; [done|]. simpl.
  destruct (decide (new_dv = distance_vector r)) as [->|Hdiff]; [done|].
  by destruct Hne.
Qed.

Lemma update_dv_sent r :
  sent (update_dv r) = [] ∨ sent (update_dv r) = broadcast_dv (state (update_dv r)).
Proof.
  unfold update_dv. destruct (compute_new_dv r) as [new_dv|e]; [|by left].
  case_decide; [by right | by left].
Qed.

Lemma fill_ext r1 r2 ds m :
  self_addr r1 = self_addr r2 → neighbors r1 = neighbors r2 →
  neighbor_dvs r1 = neighbor_dvs r2 → fill r1 ds m = fill r2 ds m.
Proof.
  intros Hs Hn Ha. revert m. induction ds as [|d ds IH]; intros m; simpl; [done|].
  rewrite Hs. case_decide; [done|].
  assert (Hroute : route_for r1 d = route_for r2 d).
  { unfold route_for. by rewrite Hn, Ha. }
  rewrite Hroute. destruct (route_for r2 d) as [e|]; simpl; [|done]. apply IH.
Qed.

(** The table [update_dv] computes is a function of the router's address,
    its neighbors and their advertisements. *)
Lemma compute_new_dv_ext r1 r2 :
  self_addr r1 = self_addr r2 → neighbors r1 = neighbors r2 →
  neighbor_dvs r1 = neighbor_dvs r2 → compute_new_dv r1 = compute_new_dv r2.
Proof.
  intros Hs Hn Ha. unfold compute_new_dv, all_dests. rewrite Hs, Hn, Ha.
  destruct (collect_keys _ _) as [s|]; simpl; [|done]. by apply fill_ext.
Qed.

(** ** The entry of the router itself *)

Lemma step_self_route a r ev :
  self_addr r = a → no_self_link a ev →
  distance_vector r !! a = Some (0, Some a) ∧ dict_get a (neighbors r) = None →
  distance_vector (state (step r ev)) !! a = Some (0, Some a) ∧
  dict_get a (neighbors (state (step r ev))) = None.
Proof.
  intros Ha Hev [Hself Hnot].
  assert (Hupd : ∀ r1, self_addr r1 = a →
            distance_vector r1 !! a = Some (0, Some a) →
            dict_get a (neighbors r1) = None →
            distance_vector (state (update_dv r1)) !! a = Some (0, Some a) ∧
            dict_get a (neighbors (state (update_dv r1))) = None).
  { intros r1 Ha1 Hs1 Hn1.
    destruct (update_dv_state r1) as [->|(new_dv & Hnew & ->)]; [done|].
    simpl. split; [|done]. rewrite <- Ha1. by apply compute_new_dv_self. }
  destruct ev as [p packet|p endpoint c|p|t]; simpl in *.
  - destruct (is_traceroute packet) eqn:Ht.
    + by rewrite handle_packet_traceroute_state.
    + unfold handle_packet. rewrite Ht, except_malformed_state.
      destruct (json_loads (pcontent packet)); [|done].
      destruct (dict_mem _ _); [|done]. by apply Hupd.
  - apply bool_decide_unpack in Hev. apply Hupd; simpl; [done|done|].
    by rewrite dict_get_set, decide_False.
  - unfold handle_remove_link.
    destruct (find_port p (neighbors r)) as [endpoint|] eqn:Hp; [|done].
    case_decide; [done|].
    destruct (find_port_elem _ _ _ Hp) as (info & Hin%dict_elem_key & _).
    apply dict_get_is_Some in Hin.
    assert (endpoint ≠ a).
    { intros ->. rewrite Hnot in Hin. by destruct Hin. }
    apply Hupd; simpl; [done| |].
    + rewrite lookup_fmap, Hself. simpl. unfold withdraw. simpl.
      rewrite decide_False; [done|congruence].
    + by rewrite dict_get_del, decide_False.
  - unfold handle_time. by case_decide.
Qed.

Lemma run_self_route a hb evs :
  forallb (no_self_link a) evs = true →
  distance_vector (run (init a hb) evs) !! a = Some (0, Some a) ∧
  dict_get a (neighbors (run (init a hb) evs)) = None.
Proof.
  induction evs as [|ev evs IH] using rev_ind; intros Hevs.
  - simpl. split; [apply lookup_singleton_eq | done].
  - rewrite forallb_app in Hevs. apply andb_true_iff in Hevs as [Hevs Hev].
    simpl in Hev. rewrite andb_true_r in Hev. rewrite run_snoc.
    apply step_self_route; [apply run_self_addr | by rewrite Hev | auto].
Qed.

(** X1: as long as no link-up names the router's own address, the route to
    itself is [(0, self)] in every state, and the router is not its own
    neighbor. *)
Theorem self_route_fixed a hb evs :
  forallb (no_self_link a) evs = true →
  distance_vector (run (init a hb) evs) !! a = Some (0, Some a) ∧
  dict_get a (neighbors (run (init a hb) evs)) = None.
Proof. apply run_self_route. Qed.

Lemma self_route_fixed_witness :
  let r := run (init "A" 10) [EvNewLink 1 "B" 3; EvRemoveLink 1] in
  distance_vector r !! "A" = Some (0, Some "A") ∧ dict_get "A" (neighbors r) = None.
Proof.
  apply (self_route_fixed "A" 10 [EvNewLink 1 "B" 3; EvRemoveLink 1]).
  reflexivity.
Defined.

(** X2: with no link-up to the router's own address, every advertisement it
    sends lists the router itself at cost 0, whoever the neighbor is. *)
Theorem advertisement_lists_self a hb evs v :
  forallb (no_self_link a) evs = true →
  poisoned_view (run (init a hb) evs) v !! a = Some 0.
Proof.
  intros [Hself Hnot]%(run_self_route a hb). rewrite poisoned_view_lookup, Hself.
  rewrite decide_False; [done|]. intros [Heq Hne]. injection Heq as ->. done.
Qed.

Lemma advertisement_lists_self_witness :
  poisoned_view (run (init "A" 10) [EvNewLink 1 "B" 3]) "B" !! "A" = Some 0.
Proof.
  apply (advertisement_lists_self "A" 10 [EvNewLink 1 "B" 3] "B"). reflexivity.
Defined.

(** ** Advertisements are kept for the neighbors and for nobody else *)

Lemma step_adverts_keys r ev :
  (∀ v, is_Some (neighbor_dvs r !! v) ↔ is_Some (dict_get v (neighbors r))) →
  ∀ v, is_Some (neighbor_dvs (state (step r ev)) !! v) ↔
       is_Some (dict_get v (neighbors (state (step r ev)))).
Proof.
  intros Hinv. destruct ev as [p packet|p endpoint c|p|t]; simpl.
  - destruct (is_traceroute packet) eqn:Ht.
    + by rewrite handle_packet_traceroute_state.
    + unfold handle_packet. rewrite Ht, except_malformed_state.
      destruct (json_loads (pcontent packet)) as [x|]; [|done].
      destruct (dict_mem _ _) eqn:Hmem; [|done].
      apply bool_decide_eq_true in Hmem.
      destruct (update_dv_frame (set_neighbor_dv r (src_addr packet) x))
        as (_ & -> & -> & _). simpl. intros v.
      rewrite lookup_insert_is_Some, Hinv.
      split; [intros [<-|[_ ?]]; done | intros ?].
      destruct (decide (src_addr packet = v)); [by left | by right].
  - unfold handle_new_link. intros v.
    match goal with |- context [update_dv ?r1] =>
      destruct (update_dv_frame r1) as (_ & -> & -> & _) end. simpl.
    rewrite lookup_insert_is_Some, dict_get_set, Hinv.
    destruct (decide (v = endpoint)) as [->|Hne].
    + split; [by eauto | by left].
    + split; [intros [?|[_ ?]]; [congruence | done] | intros ?; by right].
  - unfold handle_remove_link.
    destruct (find_port p (neighbors r)) as [endpoint|]; [|done].
    case_decide; [done|]. intros v.
    match goal with |- context [update_dv ?r1] =>
      destruct (update_dv_frame r1) as (_ & -> & -> & _) end. simpl.
    rewrite lookup_delete_is_Some, dict_get_del, Hinv.
    destruct (decide (v = endpoint)) as [->|Hne].
    + split; [by intros [? _] | by intros [? ?]].
    + split; [by intros [_ ?] | intros ?; split; [congruence | done]].
  - unfold handle_time. by case_decide.
Qed.

(** X3: in every state a run can reach, an advertisement is stored for an
    address exactly when the address is a neighbor. *)
Theorem adverts_exactly_for_neighbors a hb evs v :
  is_Some (neighbor_dvs (run (init a hb) evs) !! v) ↔
  is_Some (dict_get v (neighbors (run (init a hb) evs))).
Proof.
  revert v. induction evs as [|ev evs IH] using rev_ind; intros v.
  - simpl. rewrite lookup_empty. split; by intros [? ?].
  - rewrite run_snoc. by apply step_adverts_keys.
Qed.

Lemma adverts_exactly_for_neighbors_witness :
  is_Some (neighbor_dvs (run (init "A" 10) [EvNewLink 1 "B" 3]) !! "B").
Proof.
  apply (adverts_exactly_for_neighbors "A" 10 [EvNewLink 1 "B" 3] "B").
  vm_compute. eauto.
Defined.

(** ** Routing packets that are ignored *)

(** X4: a routing packet whose content is not JSON, or whose content
    decodes and whose source is not a neighbor, changes nothing, sends
    nothing and raises nothing.  A routing packet on which [json.loads]
    raises anything else changes nothing and sends nothing either, but the
    exception escapes, neighbor or not: the content is decoded before the
    source is looked at. *)
Theorem routing_packet_ignored r p packet :
  is_traceroute packet = false →
  (json_loads (pcontent packet) = Raise JSONDecodeError ∨
   (∃ x, json_loads (pcontent packet) = Ok x) ∧
   dict_mem (src_addr packet) (neighbors r) = false →
   handle_packet r p packet = mkOutcome r [] None) ∧
  (∀ e, json_loads (pcontent packet) = Raise e → e ≠ JSONDecodeError →
        handle_packet r p packet = mkOutcome r [] (Some e)).
Proof.
  intros Ht. unfold handle_packet. rewrite Ht. split.
  - intros [Hload|[[x Hload] Hmem]]; rewrite Hload; [done|]. by rewrite Hmem.
  - intros e Hload Hne. rewrite Hload.
    destruct (pcontent packet); simpl in Hload; try done;
      injection Hload as <-; done.
Qed.

Lemma routing_packet_ignored_witness :
  let r := run (init "A" 10) [EvNewLink 1 "B" 3] in
  let packet := mkPacket ROUTING "C" "A" (Json (PDict {[ "D" := PInt 1 ]})) in
  let nested := mkPacket ROUTING "C" "A" (TooDeep "[[[[") in
  handle_packet r 2 packet = mkOutcome r [] None ∧
  handle_packet r 2 nested = mkOutcome r [] (Some RecursionError).
Proof.
  intros r packet nested. split.
  - apply (routing_packet_ignored r 2 packet); [reflexivity|].
    right. split; [by eexists | reflexivity].
  - apply (routing_packet_ignored r 2 nested); [reflexivity..|discriminate].
Defined.

(** ** The heartbeat *)

(** X5: a tick that comes at least [heartbeat_time] after the last broadcast
    tick sends the broadcast of the current table, notes the time and leaves
    table, neighbors and advertisements alone; a tick less than
    [heartbeat_time] after it then sends nothing and changes nothing. *)
Theorem heartbeat_period r t t' :
  t - last_time r >= heartbeat_time r →
  t' - t < heartbeat_time r →
  let o := handle_time r t in
  sent o = broadcast_dv r ∧ raised o = None ∧
  last_time (state o) = t ∧
  distance_vector (state o) = distance_vector r ∧
  neighbors (state o) = neighbors r ∧
  neighbor_dvs (state o) = neighbor_dvs r ∧
  handle_time (state o) t' = mkOutcome (state o) [] None.
Proof.
  intros Hdue Hsoon. unfold handle_time. rewrite decide_True by done. simpl.
  repeat split. rewrite decide_False by lia. done.
Qed.

Lemma heartbeat_period_witness :
  let r := run (init "A" 10) [EvNewLink 1 "B" 3] in
  sent (handle_time r 10) = broadcast_dv r ∧
  handle_time (state (handle_time r 10)) 19
    = mkOutcome (state (handle_time r 10)) [] None.
Proof.
  intros r.
  destruct (heartbeat_period r 10 19) as (Hsent & _ & _ & _ & _ & _ & Hquiet).
  - vm_compute. discriminate.
  - vm_compute. reflexivity.
  - split; [exact Hsent | exact Hquiet].
Defined.

(** ** Link-down *)

(** X6: a link-down on a port no neighbor is bound to does nothing. *)
Theorem remove_link_unbound_port r p :
  (∀ v info, (v, info) ∈ neighbors r → port info ≠ p) →
  handle_remove_link r p = mkOutcome r [] None.
Proof.
  intros Hfree%find_port_None. unfold handle_remove_link. by rewrite Hfree.
Qed.

Lemma remove_link_unbound_port_witness :
  let r := run (init "A" 10) [EvNewLink 1 "B" 3] in
  handle_remove_link r 2 = mkOutcome r [] None.
Proof.
  intros r. apply (remove_link_unbound_port r 2).
  intros v info [[= -> ->]|?%elem_of_nil]%elem_of_cons; [discriminate | done].
Defined.

(** X7: a link-down that finds a neighbor takes the first neighbor bound to the
    port out of [neighbors] and out of [neighbor_dvs] and leaves every other
    neighbor and advertisement as it was, whether or not the recomputation
    that follows raises. *)
Theorem remove_link_removes_first r p endpoint :
  find_port p (neighbors r) = Some endpoint → endpoint ≠ EmptyString →
  let r' := state (handle_remove_link r p) in
  dict_get endpoint (neighbors r') = None ∧
  neighbor_dvs r' !! endpoint = None ∧
  ∀ w, w ≠ endpoint →
       dict_get w (neighbors r') = dict_get w (neighbors r) ∧
       neighbor_dvs r' !! w = neighbor_dvs r !! w.
Proof.
  intros Hp Hne. unfold handle_remove_link. rewrite Hp, decide_False by done.
  match goal with |- context [update_dv ?r1] =>
    destruct (update_dv_frame r1) as (_ & Hn & Ha & _) end.
  simpl in *. rewrite Hn, Ha. clear Hn Ha. repeat split.
  - by rewrite dict_get_del, decide_True.
  - apply lookup_delete_eq.
  - by rewrite dict_get_del, decide_False.
  - by apply lookup_delete_ne.
Qed.

Lemma remove_link_removes_first_witness :
  let r := run (init "A" 10) [EvNewLink 1 "B" 3; EvNewLink 2 "C" 1] in
  dict_get "B" (neighbors (state (handle_remove_link r 1))) = None.
Proof.
  intros r.
  apply (remove_link_removes_first r 1 "B"); [reflexivity | discriminate].
Defined.

Lemma step_keeps_empty_address r ev :
  is_Some (dict_get EmptyString (neighbors r)) →
  is_Some (dict_get EmptyString (neighbors (state (step r ev)))).
Proof.
  intros Hin. destruct ev as [p packet|p endpoint c|p|t]; simpl.
  - destruct (is_traceroute packet) eqn:Ht.
    + by rewrite handle_packet_traceroute_state.
    + unfold handle_packet. rewrite Ht, except_malformed_state.
      destruct (json_loads (pcontent packet)) as [x|]; [|done].
      destruct (dict_mem _ _); [|done].
      by destruct (update_dv_frame (set_neighbor_dv r (src_addr packet) x))
        as (_ & -> & _).
  - unfold handle_new_link.
    match goal with |- context [update_dv ?r1] =>
      destruct (update_dv_frame r1) as (_ & -> & _) end. simpl.
    rewrite dict_get_set. by case_decide.
  - unfold handle_remove_link.
    destruct (find_port p (neighbors r)) as [endpoint|]; [|done].
    case_decide as Hempty; [done|].
    match goal with |- context [update_dv ?r1] =>
      destruct (update_dv_frame r1) as (_ & -> & _) end. simpl.
    rewrite dict_get_del, decide_False; [done|congruence].
  - unfold handle_time. by case_decide.
Qed.

(** X8: the test [if endpoint_to_remove:] is false for the empty string, so a
    neighbor whose address is the empty string is never removed: once it is
    a neighbor it stays one whatever events follow. *)
Theorem empty_address_neighbor_stays r evs :
  is_Some (dict_get EmptyString (neighbors r)) →
  is_Some (dict_get EmptyString (neighbors (run r evs))).
Proof.
  intros Hin. induction evs as [|ev evs IH] using rev_ind; [done|].
  rewrite run_snoc. by apply step_keeps_empty_address.
Qed.

Lemma empty_address_neighbor_stays_witness :
  is_Some (dict_get EmptyString
             (neighbors (run (run (init "A" 10) [EvNewLink 1 EmptyString 3])
                           [EvRemoveLink 1]))).
Proof.
  apply (empty_address_neighbor_stays
           (run (init "A" 10) [EvNewLink 1 EmptyString 3]) [EvRemoveLink 1]).
  vm_compute. eauto.
Defined.

(** ** Link-up *)

(** X9: after a link-up the endpoint is a neighbor with the given port and
    cost and an empty advertisement, and every other neighbor and
    advertisement is as before, whether or not the recomputation raises. *)
Theorem new_link_recorded r p endpoint c w :
  let r' := state (handle_new_link r p endpoint c) in
  dict_get endpoint (neighbors r') = Some (mkInfo p c) ∧
  neighbor_dvs r' !! endpoint = Some (PDict ∅) ∧
  (w ≠ endpoint →
   dict_get w (neighbors r') = dict_get w (neighbors r) ∧
   neighbor_dvs r' !! w = neighbor_dvs r !! w).
Proof.
  unfold handle_new_link.
  match goal with |- context [update_dv ?r1] =>
    destruct (update_dv_frame r1) as (_ & Hn & Ha & _) end.
  simpl in *. rewrite Hn, Ha. clear Hn Ha. repeat split.
  - by rewrite dict_get_set, decide_True.
  - apply lookup_insert_eq.
  - by rewrite dict_get_set, decide_False.
  - by apply lookup_insert_ne.
Qed.

Lemma new_link_recorded_witness :
  let r := run (init "A" 10) [EvNewLink 1 "B" 3] in
  dict_get "B" (neighbors (state (handle_new_link r 2 "C" 1)))
  = dict_get "B" (neighbors r).
Proof.
  intros r.
  destruct (new_link_recorded r 2 "C" 1 "B") as (_ & _ & Hother).
  apply Hother. discriminate.
Defined.

(** X10: a link-up of a new endpoint on a free port followed by the link-down
    of that port gives back the neighbors, in their order, and the
    advertisements the router had before. *)
Theorem new_link_then_remove_link r p endpoint c :
  endpoint ≠ EmptyString →
  dict_get endpoint (neighbors r) = None →
  neighbor_dvs r !! endpoint = None →
  (∀ v info, (v, info) ∈ neighbors r → port info ≠ p) →
  let r' := state (handle_remove_link (state (handle_new_link r p endpoint c)) p) in
  neighbors r' = neighbors r ∧ neighbor_dvs r' = neighbor_dvs r.
Proof.
  intros Hne Hnew Hadv Hfree.
  set (r1 := state (handle_new_link r p endpoint c)).
  assert (Hn : neighbors r1 = dict_set endpoint (mkInfo p c) (neighbors r)).
  { subst r1. unfold handle_new_link.
    match goal with |- context [update_dv ?r0] =>
      by destruct (update_dv_frame r0) as (_ & -> & _) end. }
  assert (Ha : neighbor_dvs r1 = <[endpoint := PDict ∅]> (neighbor_dvs r)).
  { subst r1. unfold handle_new_link.
    match goal with |- context [update_dv ?r0] =>
      by destruct (update_dv_frame r0) as (_ & _ & -> & _) end. }
  clearbody r1. unfold handle_remove_link.
  rewrite Hn, (find_port_set_fresh p c endpoint _ Hfree), decide_False by done.
  match goal with |- context [update_dv ?r2] =>
    destruct (update_dv_frame r2) as (_ & Hn2 & Ha2 & _) end.
  simpl in Hn2, Ha2. simpl. rewrite Hn2, Ha2, Ha. split.
  - by apply dict_del_set_fresh.
  - by apply delete_insert_id.
Qed.

Lemma new_link_then_remove_link_witness :
  let r := run (init "A" 10) [EvNewLink 1 "B" 3] in
  let r' := state (handle_remove_link (state (handle_new_link r 2 "C" 1)) 2) in
  neighbors r' = neighbors r ∧ neighbor_dvs r' = neighbor_dvs r.
Proof.
  intros r. apply (new_link_then_remove_link r 2 "C" 1).
  - discriminate.
  - reflexivity.
  - vm_compute. reflexivity.
  - intros v info [[= -> ->]|?%elem_of_nil]%elem_of_cons; [discriminate | done].
Defined.

(** ** Runs on well-formed advertisements *)

Lemma is_cost_map_empty : is_cost_map (PDict ∅).
Proof. simpl. apply bool_decide_pack, map_Forall_empty. Qed.

Lemma update_dv_wf r :
  adverts_wf r →
  raised (update_dv r) = None ∧
  adverts_wf (state (update_dv r)) ∧
  compute_new_dv (state (update_dv r)) = Ok (distance_vector (state (update_dv r))).
Proof.
  intros Hwf. destruct (compute_new_dv_Ok r Hwf) as [new_dv Hnew].
  assert (Hraised : raised (update_dv r) = None).
  { unfold update_dv. rewrite Hnew. by case_decide. }
  destruct (update_dv_returns r Hraised) as (new_dv' & Hnew' & Hdv).
  rewrite Hnew in Hnew'. injection Hnew' as <-.
  destruct (update_dv_frame r) as (Hs & Hn & Ha & _).
  split; [done|]. split.
  - unfold adverts_wf. by rewrite Ha.
  - by rewrite Hdv, (compute_new_dv_ext _ r).
Qed.

Lemma step_wf r ev :
  event_wf ev →
  adverts_wf r ∧ compute_new_dv r = Ok (distance_vector r) →
  adverts_wf (state (step r ev)) ∧
  compute_new_dv (state (step r ev)) = Ok (distance_vector (state (step r ev))) ∧
  ∀ e, raised (step r ev) = Some e →
       ∃ p packet, ev = EvPacket p packet ∧ is_traceroute packet = false ∧
                   json_loads (pcontent packet) = Raise e ∧ e ≠ JSONDecodeError.
Proof.
  intros Hev [Hwf Hfix]. destruct ev as [p packet|p endpoint c|p|t]; simpl in *.
  - destruct (is_traceroute packet) eqn:Ht.
    + rewrite handle_packet_traceroute_state by done. do 2 (split; [done|]).
      unfold handle_packet. rewrite Ht.
      destruct (distance_vector r !! dst_addr packet) as [[c [nh|]]|]; [|done..].
      case_decide; [|done]. by destruct (dict_get nh (neighbors r)).
    + simpl in Hev. unfold handle_packet. rewrite Ht.
      destruct (json_loads (pcontent packet)) as [x|e] eqn:Hload.
      * destruct (dict_mem _ _); [|done].
        destruct (update_dv_wf (set_neighbor_dv r (src_addr packet) x))
          as (Hraised & Hwf' & Hfix').
        { unfold adverts_wf. simpl. by apply map_Forall_insert_2. }
        unfold except_malformed. rewrite Hraised. do 2 (split; [done|]).
        intros e'. by rewrite Hraised.
      * do 2 (split; [by rewrite except_malformed_state|]).
        intros e' He'. exists p, packet.
        destruct (pcontent packet); simpl in Hload; try done;
          injection Hload as <-; simpl in He'; try done;
          by injection He' as <-.
  - destruct (update_dv_wf
      {| self_addr := self_addr r;
         heartbeat_time := heartbeat_time r;
         last_time := last_time r;
         distance_vector := distance_vector r;
         neighbors := dict_set endpoint (mkInfo p c) (neighbors r);
         neighbor_dvs := <[endpoint := PDict ∅]> (neighbor_dvs r) |})
      as (Hraised & Hwf' & Hfix').
    { unfold adverts_wf. simpl.
      apply map_Forall_insert_2; [apply is_cost_map_empty | done]. }
    unfold handle_new_link. by rewrite Hraised.
  - unfold handle_remove_link.
    destruct (find_port p (neighbors r)) as [endpoint|]; [|done].
    case_decide; [done|].
    match goal with |- context [update_dv ?r1] =>
      destruct (update_dv_wf r1) as (Hraised & Hwf' & Hfix') end.
    { unfold adverts_wf. simpl. by apply map_Forall_delete. }
    by rewrite Hraised.
  - unfold handle_time. case_decide; [|done]. simpl. split; [done|].
    split; [|done]. rewrite <- Hfix. by apply compute_new_dv_ext.
Qed.

Lemma run_wf a hb evs :
  forallb event_wf evs = true →
  adverts_wf (run (init a hb) evs) ∧
  compute_new_dv (run (init a hb) evs)
  = Ok (distance_vector (run (init a hb) evs)).
Proof.
  induction evs as [|ev evs IH] using rev_ind; intros Hevs.
  - split; [apply map_Forall_empty|].
    unfold compute_new_dv, all_dests. simpl.
    rewrite map_to_list_empty. simpl.
    rewrite (right_id_L ∅ (∪)), elements_singleton. simpl.
    by rewrite decide_True.
  - rewrite forallb_app in Hevs. apply andb_true_iff in Hevs as [Hevs Hev].
    simpl in Hev. rewrite andb_true_r in Hev. rewrite run_snoc.
    destruct (step_wf (run (init a hb) evs) ev) as (? & ? & _);
      [by rewrite Hev | auto | done].
Qed.



(** X12: on runs whose routing packets, when they decode, carry mappings
    from destinations to integer costs, the table is at every handler
    boundary the one
    [update_dv] computes from the current neighbors and advertisements: a
    recomputation at any point would change nothing and send nothing. *)
Theorem wf_run_table_is_computed a hb evs :
  forallb event_wf evs = true →
  update_dv (run (init a hb) evs) = mkOutcome (run (init a hb) evs) [] None.
Proof.
  intros [_ Hfix]%(run_wf a hb). unfold update_dv. rewrite Hfix.
  rewrite decide_False; [done|]. intros Hdiff. by apply Hdiff.
Qed.

Lemma wf_run_table_is_computed_witness :
  let r := run (init "A" 10) [EvNewLink 1 "B" 3; EvRemoveLink 1] in
  update_dv r = mkOutcome r [] None.
Proof.
  apply (wf_run_table_is_computed "A" 10 [EvNewLink 1 "B" 3; EvRemoveLink 1]).
  reflexivity.
Defined.

(** X13: on runs whose routing packets, when they decode, carry mappings
    from destinations to integer costs, no entry with cost INFINITY is ever
    left in the table at
    a handler boundary: every destination other than the router itself that
    the table holds has a cost below INFINITY and a neighbor as next hop. *)
Theorem wf_run_entries_finite a hb evs d c nh :
  forallb event_wf evs = true →
  d ≠ a →
  distance_vector (run (init a hb) evs) !! d = Some (c, nh) →
  c < INFINITY ∧
  ∃ v, nh = Some v ∧ is_Some (dict_get v (neighbors (run (init a hb) evs))).
Proof.
  intros [_ Hfix]%(run_wf a hb) Hd Hlook.
  pose proof (run_self_addr (init a hb) evs) as Hself. simpl in Hself.
  apply (compute_new_dv_other _ _ _ _ Hfix) in Hlook; [|by rewrite Hself].
  apply route_for_hop in Hlook as [Hlt (v & -> & Hv)].
  split; [done|]. exists v. split; [done|]. by apply dict_get_is_Some.
Qed.

Lemma wf_run_entries_finite_witness :
  3 < INFINITY ∧
  ∃ v, Some "B" = Some v ∧
       is_Some (dict_get v (neighbors (run (init "A" 10) [EvNewLink 1 "B" 3]))).
Proof.
  apply (wf_run_entries_finite "A" 10 [EvNewLink 1 "B" 3] "B" 3 (Some "B")).
  - reflexivity.
  - discriminate.
  - vm_compute. reflexivity.
Defined.

(** ** A stored advertisement that is no dict *)

Lemma collect_keys_non_dict dvs acc x :
  x ∈ dvs → is_dict x = false → collect_keys dvs acc = Raise AttributeError.
Proof.
  intros Hin Hx. revert acc.
  induction dvs as [|y dvs IH]; intros acc; [by apply elem_of_nil in Hin|].
  simpl. apply elem_of_cons in Hin as [<-|Hin].
  - by destruct x.
  - destruct y; simpl; try done. by apply IH.
Qed.

(** X14: while [neighbor_dvs] holds a value that is not a dict, [update_dv]
    raises [AttributeError] before it has changed or sent anything; so a
    link-up of another endpoint records the link but raises too, without a
    broadcast and without touching the table. *)
Theorem non_dict_advert_blocks_update r v x p endpoint c :
  neighbor_dvs r !! v = Some x → is_dict x = false →
  update_dv r = mkOutcome r [] (Some AttributeError) ∧
  (endpoint ≠ v →
   let o := handle_new_link r p endpoint c in
   raised o = Some AttributeError ∧ sent o = [] ∧
   distance_vector (state o) = distance_vector r ∧
   dict_get endpoint (neighbors (state o)) = Some (mkInfo p c)).
Proof.
  intros Hv Hx.
  assert (Hblock : ∀ r1, neighbor_dvs r1 !! v = Some x →
            update_dv r1 = mkOutcome r1 [] (Some AttributeError)).
  { intros r1 Hv1. unfold update_dv, compute_new_dv, all_dests.
    rewrite (collect_keys_non_dict _ _ x); [done| |done].
    apply list_elem_of_fmap. exists (v, x). split; [done|].
    by apply elem_of_map_to_list. }
  split; [by apply Hblock|]. intros Hne o. subst o. unfold handle_new_link.
  rewrite Hblock; simpl.
  - repeat split. by rewrite dict_get_set, decide_True.
  - by rewrite lookup_insert_ne.
Qed.

Lemma non_dict_advert_blocks_update_witness :
  let r := state (handle_packet (run (init "A" 10) [EvNewLink 1 "B" 3]) 1
                    (mkPacket ROUTING "B" "A" (Json (PStr "hello")))) in
  update_dv r = mkOutcome r [] (Some AttributeError).
Proof.
  intros r.
  destruct (non_dict_advert_blocks_update r "B" (PStr "hello") 2 "C" 1)
    as [Hupd _]; [vm_compute; reflexivity | reflexivity | exact Hupd].
Defined.

(** ** Which neighbor becomes the next hop *)

Lemma relax_first r d ns best :
  adverts_wf r →
  ∃ res, relax (neighbor_dvs r) d ns best = Ok res ∧
    ((res = best ∧ ∀ x, x ∈ ns → best.1 ≤ estimate r d x) ∨
     ∃ l1 item l2,
       ns = l1 ++ item :: l2 ∧ res = (estimate r d item, Some item.1) ∧
       estimate r d item < best.1 ∧
       (∀ x, x ∈ l1 → estimate r d item < estimate r d x) ∧
       (∀ x, x ∈ l2 → estimate r d item ≤ estimate r d x)).
Proof.
  intros Hwf. revert best. induction ns as [|[v info] ns IH]; intros best; simpl.
  - exists best. split; [done|]. left. split; [done|]. by intros x ?%elem_of_nil.
  - rewrite (adverts_wf_read r v d Hwf). simpl.
    set (e := cost info + advertisedCost r v d).
    assert (He : estimate r d (v, info) = e) by done.
    destruct (decide (e < best.1)) as [Hlt|Hge].
    + destruct (IH (e, Some v)) as (res & Hres & Hcase). exists res.
      split; [done|]. right.
      destruct Hcase as [[-> Hall]|(l1 & item & l2 & -> & -> & Hlt' & H1 & H2)].
      * exists [], (v, info), ns. rewrite He. simpl in *.
        repeat split; try done. by intros x ?%elem_of_nil.
      * exists ((v, info) :: l1), item, l2. simpl in *.
        repeat split; try done; [lia|].
        intros x [->|?]%elem_of_cons; [by rewrite He | auto].
    + destruct (IH best) as (res & Hres & Hcase). exists res.
      split; [done|].
      destruct Hcase as [[-> Hall]|(l1 & item & l2 & -> & -> & Hlt' & H1 & H2)].
      * left. split; [done|].
        intros x [->|?]%elem_of_cons; [rewrite He; lia | auto].
      * right. exists ((v, info) :: l1), item, l2. simpl.
        repeat split; try done.
        intros x [->|?]%elem_of_cons; [rewrite He; lia | auto].
Qed.

(** X15: ties go to the neighbor that comes first in [neighbors]: on
    advertisements that map to integer costs, the next hop stored for a
    candidate destination is the first neighbor, in the order of the dict,
    whose estimate is the minimum; every neighbor before it has a strictly
    larger estimate. *)
Theorem next_hop_is_first_minimal r d :
  adverts_wf r → d ≠ self_addr r → candidate r d → newCost r d < INFINITY →
  ∃ l1 item l2,
    neighbors r = l1 ++ item :: l2 ∧
    distance_vector (state (update_dv r)) !! d = Some (newCost r d, Some item.1) ∧
    estimate r d item = newCost r d ∧
    ∀ x, x ∈ l1 → newCost r d < estimate r d x.
Proof.
  intros Hwf Hd Hcand Hlt.
  destruct (update_dv_wf r Hwf) as (Hraised & _ & _).
  destruct (update_dv_returns r Hraised) as (new_dv & Hnew & ->).
  destruct (compute_new_dv_candidate r new_dv d Hnew Hd Hcand) as (e & He & ->).
  destruct (relax_first r d (neighbors r) (INFINITY, None) Hwf)
    as (res & Hres & Hcase).
  destruct (relax_spec r d (neighbors r) (INFINITY, None) Hwf)
    as (res' & Hres' & Hmin & _).
  rewrite Hres in Hres'. injection Hres' as <-. simpl in Hmin.
  fold (newCost r d) in Hmin.
  unfold route_for in He. rewrite Hres in He. simpl in He.
  destruct Hcase as [[-> _]|(l1 & item & l2 & Hns & -> & _ & H1 & _)];
    simpl in *; [lia|].
  exists l1, item, l2. rewrite <- Hmin.
  rewrite Z.min_l in He by (rewrite Hmin; lia).
  rewrite decide_True in He by (rewrite Hmin; lia).
  injection He as <-. auto.
Qed.

Lemma next_hop_is_first_minimal_witness :
  let r := run (init "A" 10)
             [EvNewLink 1 "B" 2; EvNewLink 2 "C" 1;
              EvPacket 1 (mkPacket ROUTING "B" "A" (Json (PDict {[ "D" := PInt 1 ]})));
              EvPacket 2 (mkPacket ROUTING "C" "A" (Json (PDict {[ "D" := PInt 2 ]})))] in
  ∃ l1 item l2,
    neighbors r = l1 ++ item :: l2 ∧
    distance_vector (state (update_dv r)) !! "D" = Some (newCost r "D", Some item.1) ∧
    estimate r "D" item = newCost r "D" ∧
    ∀ x, x ∈ l1 → newCost r "D" < estimate r "D" x.
Proof.
  intros r. apply (next_hop_is_first_minimal r "D").
  - apply (bool_decide_unpack _). vm_compute. exact I.
  - vm_compute. discriminate.
  - right. exists "B", {[ "D" := PInt 1 ]}.
    split; [vm_compute; reflexivity|]. vm_compute. eauto.
  - vm_compute. reflexivity.
Defined.

(** X16: on advertisements that map to integer costs, a neighbor other than the
    router itself whose link costs less than INFINITY is in the table after
    [update_dv], at a cost no higher than that of the link. *)
Theorem neighbor_route_at_most_link r v info :
  adverts_wf r → (v, info) ∈ neighbors r → v ≠ self_addr r →
  cost info < INFINITY →
  ∃ c nh, distance_vector (state (update_dv r)) !! v = Some (c, nh) ∧
          c ≤ cost info.
Proof.
  intros Hwf Hin Hv Hcost.
  destruct (update_dv_wf r Hwf) as (Hraised & _ & _).
  destruct (update_dv_returns r Hraised) as (new_dv & Hnew & ->).
  assert (Hcand : candidate r v) by (left; by eapply dict_elem_key).
  destruct (compute_new_dv_candidate r new_dv v Hnew Hv Hcand) as (e & He & ->).
  destruct (route_for_spec r v Hwf) as (e' & He' & Hlt & _).
  rewrite He in He'. injection He' as <-.
  destruct (newCost_le r v) as [_ Hall]. specialize (Hall _ Hin).
  assert (Hest : estimate r v (v, info) = cost info).
  { unfold estimate, advertisedCost. simpl. rewrite decide_True by done. lia. }
  destruct Hlt as (item & _ & _ & ->); [lia|]. eauto with lia.
Qed.

Lemma neighbor_route_at_most_link_witness :
  let r := run (init "A" 10) [EvNewLink 1 "B" 3] in
  ∃ c nh, distance_vector (state (update_dv r)) !! "B" = Some (c, nh) ∧ c ≤ 3.
Proof.
  intros r. apply (neighbor_route_at_most_link r "B" (mkInfo 1 3)).
  - apply (bool_decide_unpack _). vm_compute. exact I.
  - left.
  - discriminate.
  - reflexivity.
Defined.

(** ** What the table and the sends can hold *)

(** X17: when [update_dv] returns normally, every destination of the table is
    the router itself, a neighbor, or a key of some neighbor's
    advertisement. *)
Theorem table_holds_candidates_only r d :
  raised (update_dv r) = None →
  is_Some (distance_vector (state (update_dv r)) !! d) →
  d = self_addr r ∨ candidate r d.
Proof.
  intros (new_dv & Hnew & ->)%update_dv_returns [e He].
  unfold compute_new_dv in Hnew. bind_inv Hnew.
  apply (all_dests_elem r a d Ha).
  destruct (decide (d ∈ a)) as [|Hout]; [done|].
  rewrite (fill_lookup_out _ _ _ _ d Hnew) in He.
  - apply lookup_singleton_Some in He as [<- _]. apply (all_dests_elem r a _ Ha).
    by left.
  - left. by rewrite elem_of_elements.
Qed.

Lemma table_holds_candidates_only_witness :
  let r := run (init "A" 10) [EvNewLink 1 "B" 3] in
  "B" = self_addr r ∨ candidate r "B".
Proof.
  intros r. apply (table_holds_candidates_only r "B").
  - vm_compute. reflexivity.
  - vm_compute. eauto.
Defined.

(** X18: in every state a run can reach, an entry without a next hop has cost
    INFINITY. *)
Theorem no_next_hop_means_infinity a hb evs d c :
  distance_vector (run (init a hb) evs) !! d = Some (c, None) → c = INFINITY.
Proof.
  intros Hd. pose proof (run_table_inv a hb evs) as Hinv.
  pose proof (run_self_addr (init a hb) evs) as Hself. simpl in Hself.
  pose proof (inv_le _ Hinv _ _ _ Hd) as Hle.
  destruct (decide (d = a)) as [->|Hne].
  - destruct (inv_self _ Hinv) as [Hs|Hs]; rewrite Hself, Hd in Hs; congruence.
  - destruct (decide (c < INFINITY)) as [Hlt|]; [|lia].
    destruct (inv_hop _ Hinv d c None Hd) as (v & ? & _);
      [by rewrite Hself | done | done].
Qed.

Lemma no_next_hop_means_infinity_witness : 16 = INFINITY.
Proof.
  apply (no_next_hop_means_infinity "A" 10
           [EvNewLink 1 "B" 3; EvNewLink 2 "C" 1;
            EvPacket 2 (mkPacket ROUTING "C" "A" (Json (PStr "hello")));
            EvRemoveLink 1]
           "B" 16).
  vm_compute. reflexivity.
Defined.

Lemma broadcast_dv_elem r s :
  s ∈ broadcast_dv r →
  ∃ v info, (v, info) ∈ neighbors r ∧ s = (port info, dv_packet r v).
Proof.
  unfold broadcast_dv. intros ([v info] & -> & Hin)%list_elem_of_fmap.
  by exists v, info.
Qed.

(** X19: whatever the state and the event, every packet a handler sends goes out
    on the port of a neighbor the router has when the handler ends; the
    packet is either the data packet that came in, on its way to its next
    hop, or a routing packet from the router addressed to that neighbor. *)
Theorem sends_use_neighbor_ports r ev s :
  s ∈ sent (step r ev) →
  ∃ v info,
    (v, info) ∈ neighbors (state (step r ev)) ∧ s.1 = port info ∧
    ((∃ p, ev = EvPacket p s.2 ∧ is_traceroute s.2 = true) ∨
     (kind s.2 = ROUTING ∧ src_addr s.2 = self_addr r ∧ dst_addr s.2 = v)).
Proof.
  assert (Hupd : ∀ r1, self_addr r1 = self_addr r → s ∈ sent (update_dv r1) →
            ∃ v info, (v, info) ∈ neighbors (state (update_dv r1)) ∧
              s.1 = port info ∧ kind s.2 = ROUTING ∧
              src_addr s.2 = self_addr r ∧ dst_addr s.2 = v).
  { intros r1 Hs1 Hin. destruct (update_dv_sent r1) as [Hnil|Hbc].
    - rewrite Hnil in Hin. by apply elem_of_nil in Hin.
    - rewrite Hbc in Hin. apply broadcast_dv_elem in Hin as (v & info & Hv & ->).
      exists v, info. simpl. by rewrite update_dv_self_addr. }
  destruct ev as [p packet|p endpoint c|p|t]; simpl.
  - destruct (is_traceroute packet) eqn:Ht.
    + unfold handle_packet. rewrite Ht.
      destruct (distance_vector r !! dst_addr packet) as [[c [nh|]]|];
        try (by intros ?%elem_of_nil).
      case_decide; [|by intros ?%elem_of_nil].
      destruct (dict_get nh (neighbors r)) as [info|] eqn:Hnh;
        [|by intros ?%elem_of_nil].
      simpl. intros ->%list_elem_of_singleton. exists nh, info. simpl.
      split; [by apply dict_get_Some_elem|]. split; [done|]. left. by exists p.
    + unfold handle_packet. rewrite Ht, except_malformed_state.
      assert (Hsent : ∀ o, sent (except_malformed o) = sent o).
      { intros o. unfold except_malformed. by destruct (raised o) as [[]|]. }
      rewrite Hsent.
      destruct (json_loads (pcontent packet)) as [x|];
        [|by intros ?%elem_of_nil].
      destruct (dict_mem _ _); [|by intros ?%elem_of_nil].
      intros (v & info & ? & ? & ?)%Hupd; [|done]. exists v, info.
      split; [done|]. split; [done|]. by right.
  - intros (v & info & ? & ? & ?)%Hupd; [|done]. exists v, info.
      split; [done|]. split; [done|]. by right.
  - unfold handle_remove_link.
    destruct (find_port p (neighbors r)) as [endpoint|];
      [|by intros ?%elem_of_nil].
    case_decide; [by intros ?%elem_of_nil|].
    intros (v & info & ? & ? & ?)%Hupd; [|done]. exists v, info.
      split; [done|]. split; [done|]. by right.
  - unfold handle_time. case_decide; [|by intros ?%elem_of_nil]. simpl.
    intros (v & info & Hv & ->)%broadcast_dv_elem. exists v, info. simpl.
    split; [done|]. split; [done|]. by right.
Qed.

Lemma sends_use_neighbor_ports_witness :
  let r := run (init "A" 10) [EvNewLink 1 "B" 3] in
  let packet := mkPacket TRACEROUTE "X" "B" (Garbled "ping") in
  ∃ v info,
    (v, info) ∈ neighbors (state (step r (EvPacket 7 packet))) ∧
    1 = port info ∧
    ((∃ p, EvPacket 7 packet = EvPacket p packet ∧ is_traceroute packet = true) ∨
     (kind packet = ROUTING ∧ src_addr packet = self_addr r ∧ dst_addr packet = v)).
Proof.
  intros r packet.
  apply (sends_use_neighbor_ports r (EvPacket 7 packet) (1, packet)).
  vm_compute. left.
Defined.

(** ** Recomputation from scratch *)

(** X20: [update_dv] rebuilds the table from the neighbors and advertisements
    alone: started from two different tables on the same neighbors and
    advertisements it raises the same or not at all, and when it returns
    normally it leaves the same table. *)
Theorem update_dv_forgets_table r dv1 dv2 :
  raised (update_dv (set_distance_vector r dv1))
  = raised (update_dv (set_distance_vector r dv2)) ∧
  (raised (update_dv (set_distance_vector r dv1)) = None →
   distance_vector (state (update_dv (set_distance_vector r dv1)))
   = distance_vector (state (update_dv (set_distance_vector r dv2)))).
Proof.
  assert (Hraised : ∀ dv, raised (update_dv (set_distance_vector r dv))
            = match compute_new_dv r with Ok _ => None | Raise e => Some e end).
  { intros dv. unfold update_dv.
    rewrite compute_new_dv_set_distance_vector.
    destruct (compute_new_dv r); [by case_decide | done]. }
  split; [by rewrite !Hraised|]. intros H1.
  assert (H2 : raised (update_dv (set_distance_vector r dv2)) = None)
    by (by rewrite Hraised, <- (Hraised dv1)).
  apply update_dv_returns in H1 as (n1 & Hn1 & ->).
  apply update_dv_returns in H2 as (n2 & Hn2 & ->).
  rewrite compute_new_dv_set_distance_vector in Hn1, Hn2. congruence.
Qed.

Lemma update_dv_forgets_table_witness :
  let r := run (init "A" 10) [EvNewLink 1 "B" 3] in
  distance_vector (state (update_dv (set_distance_vector r ∅)))
  = distance_vector (state (update_dv (set_distance_vector r {[ "Z" := (1, Some "B") ]}))).
Proof.
  intros r.
  destruct (update_dv_forgets_table r ∅ {[ "Z" := (1, Some "B") ]}) as [_ Hsame].
  apply Hsame. vm_compute. reflexivity.
Defined.

(** ** The exceptions that can escape *)

Lemma bind_Raise {A B} (m : result A) (f : A → result B) (e : exn) :
  m ≫= f = Raise e → m = Raise e ∨ ∃ a, m = Ok a ∧ f a = Raise e.
Proof.
  destruct m as [a|e']; simpl; intros H; [right; by exists a|].
  injection H as ->. by left.
Qed.

Lemma collect_keys_Raise dvs acc e :
  collect_keys dvs acc = Raise e → e = AttributeError.
Proof.
  revert acc. induction dvs as [|x dvs IH]; intros acc; simpl; [done|].
  intros [Hx|(ks & _ & Hrest)]%bind_Raise; [|by eapply IH].
  destruct x; simpl in Hx; congruence.
Qed.

Lemma relax_Raise advs d ns best e :
  relax advs d ns best = Raise e → e = AttributeError ∨ e = TypeError.
Proof.
  revert best. induction ns as [|[v info] ns IH]; intros best; simpl; [done|].
  intros [Hread|(y & _ & [Hadd|(t & _ & Hrest)]%bind_Raise)]%bind_Raise.
  - left. destruct (decide (d = v)); [done|].
    destruct (default (PDict ∅) (advs !! v)); simpl in Hread; congruence.
  - right. destruct y; simpl in Hadd; congruence.
  - by eapply IH.
Qed.

Lemma fill_Raise r ds m e :
  fill r ds m = Raise e → e = AttributeError ∨ e = TypeError.
Proof.
  revert m. induction ds as [|d ds IH]; intros m; simpl; [done|].
  case_decide; [by apply IH|].
  intros [Hroute|(entry & _ & Hrest)]%bind_Raise; [|by eapply IH].
  unfold route_for in Hroute.
  apply bind_Raise in Hroute as [Hrelax|(b & _ & ?)]; [|done].
  by eapply relax_Raise.
Qed.

Lemma update_dv_raised r e :
  raised (update_dv r) = Some e → e = AttributeError ∨ e = TypeError.
Proof.
  unfold update_dv. destruct (compute_new_dv r) as [new_dv|e'] eqn:Hnew.
  - by case_decide.
  - intros [= <-]. unfold compute_new_dv in Hnew.
    apply bind_Raise in Hnew as [Hkeys|(s & _ & Hfill)].
    + left. by eapply collect_keys_Raise.
    + by eapply fill_Raise.
Qed.



(** ** Poisoned reverse, seen from the receiver *)

Lemma relax_pick advs d ns best res :
  relax advs d ns best = Ok res →
  res = best ∨
  ∃ v info y,
    (v, info) ∈ ns ∧ res.2 = Some v ∧ res.1 < best.1 ∧
    (if decide (d = v) then Ok (PInt 0)
     else py_get (default (PDict ∅) (advs !! v)) d (PInt INFINITY)) = Ok y ∧
    py_add (cost info) y = Ok res.1.
Proof.
  revert best. induction ns as [|[v info] ns IH]; intros best; simpl.
  - intros [= ->]. by left.
  - intros H. bind_inv H. bind_inv H. rename a into y, a0 into total.
    apply IH in H.
    destruct (decide (total < best.1)) as [Hlt|Hge].
    + right. destruct H as [->|(w & i & z & Hin & Hw & Hlt' & Hread & Hadd)].
      * exists v, info, y. simpl. repeat split; try done. left.
      * exists w, i, z. simpl in *. repeat split; try done; [by right | lia].
    + destruct H as [->|(w & i & z & Hin & Hw & Hlt' & Hread & Hadd)];
        [by left|].
      right. exists w, i, z. repeat split; try done. by right.
Qed.

(** X22: poisoned reverse does what it is for.  Let a router hold, in a state it
    can reach, a route to [d] whose next hop is its neighbor [v], with
    [d ≠ v], and let any router with another address and a link of
    non-negative cost to it handle the routing packet [broadcast_dv] makes
    for [v].  If that handler returns normally, the receiver's table has no
    route to [d] through the sender. *)
Theorem poisoned_route_not_taken a hb evs v d c y p c' :
  let x := run (init a hb) evs in
  distance_vector x !! d = Some (c, Some v) → d ≠ v →
  self_addr y ≠ a →
  dict_mem a (neighbors y) = true →
  (∀ info, (a, info) ∈ neighbors y → 0 ≤ cost info) →
  let o := handle_packet y p (dv_packet x v) in
  raised o = None →
  distance_vector (state o) !! d ≠ Some (c', Some a).
Proof.
  intros x Hroute Hdv Hy Hmem Hcost o Hraised Hback.
  pose proof (run_table_inv a hb evs) as Hinv.
  pose proof (run_self_addr (init a hb) evs) as Hself. simpl in Hself.
  fold x in Hinv, Hself.
  assert (Hda : d ≠ a).
  { intros ->. destruct (inv_self _ Hinv) as [Hs|Hs];
      rewrite Hself, Hroute in Hs; congruence. }
  set (payload := PDict (PInt <$> poisoned_view x v)).
  set (y1 := set_neighbor_dv y a payload).
  assert (Ho : o = except_malformed (update_dv y1)).
  { subst o y1 payload. unfold handle_packet. simpl. by rewrite Hself, Hmem. }
  assert (Hupd : raised (update_dv y1) = None).
  { destruct (raised (update_dv y1)) as [e|] eqn:He; [|done].
    rewrite Ho in Hraised. unfold except_malformed in Hraised.
    rewrite He in Hraised.
    destruct (update_dv_raised _ _ He) as [-> | ->]; congruence. }
  rewrite Ho, except_malformed_state in Hback.
  destruct (update_dv_returns y1 Hupd) as (new_dv & Hnew & Htable).
  rewrite Htable in Hback.
  destruct (decide (d = self_addr y1)) as [->|Hdy].
  { rewrite (compute_new_dv_self _ _ Hnew) in Hback. congruence. }
  apply (compute_new_dv_other _ _ _ _ Hnew Hdy) in Hback.
  unfold route_for in Hback. apply bind_Ok in Hback as (best & Hrelax & Hback).
  destruct (decide (Z.min best.1 INFINITY < INFINITY)) as [Hlt|]; [|done].
  injection Hback as Hc Hnh.
  apply relax_pick in Hrelax
    as [->|(w & info & z & Hin & Hw & _ & Hread & Hadd)]; [done|].
  rewrite Hnh in Hw. injection Hw as <-.
  rewrite decide_False in Hread by done.
  subst y1 payload. simpl in Hread, Hin. rewrite lookup_insert_eq in Hread.
  simpl in Hread. rewrite lookup_fmap, poisoned_view_lookup, Hroute in Hread.
  rewrite decide_True in Hread by done. simpl in Hread. injection Hread as <-.
  simpl in Hadd. injection Hadd as Hadd. specialize (Hcost info Hin).
  unfold INFINITY in *. lia.
Qed.

Lemma poisoned_route_not_taken_witness :
  let x := run (init "A" 10)
             [EvNewLink 1 "B" 1;
              EvPacket 1 (mkPacket ROUTING "B" "A" (Json (PDict {[ "D" := PInt 1 ]})))] in
  let y := run (init "B" 10) [EvNewLink 1 "A" 1; EvNewLink 2 "D" 1; EvRemoveLink 2] in
  distance_vector (state (handle_packet y 1 (dv_packet x "B"))) !! "D"
  ≠ Some (3, Some "A").
Proof.
  intros x y.
  apply (poisoned_route_not_taken "A" 10
           [EvNewLink 1 "B" 1;
            EvPacket 1 (mkPacket ROUTING "B" "A" (Json (PDict {[ "D" := PInt 1 ]})))]
           "B" "D" 2 y 1 3).
  - vm_compute. reflexivity.
  - discriminate.
  - vm_compute. discriminate.
  - vm_compute. reflexivity.
  - intros info Hin. vm_compute in Hin.
    apply list_elem_of_singleton in Hin. injection Hin as ->.
    vm_compute. discriminate.
  - vm_compute. reflexivity.
Defined.
